(** * Synchron: the audio streaming and turn-reconciliation core of [src/App.tsx]

    A shallow embedding of the callbacks of the [App] component: the capture
    callback [onaudioprocess] (PCM framing), the session callbacks
    [onmessage], [onerror], [onclose], and [stopSession] / [startSession].

    Conventions of the embedding.
    - JS numbers that carry time (seconds of the output [AudioContext]) and
      audio samples are rationals [Q].  A [Float32Array] element is a finite
      binary32 value, hence a dyadic rational; read as a JS number it is
      exact, and so is its product by [32768 = 2^15].
    - React state ([useState]) and refs ([useRef]) are fields of one record.
      A ref is written where the code writes it.  A state setter called with
      a value, or with an updater that reads nothing but the previous state,
      is applied where it is called.  The updater passed to [setHistory]
      reads [transcriptionRef.current] in its body: React runs it when it
      renders the component next, after the handler that queued it has run
      on, so it is applied to what the ref holds then.
    - The output [AudioContext] is represented by the list of buffer source
      nodes created on it, in creation order; a node is named by its index.
      Its clock [currentTime] is an input of every callback that reads it. *)

From Stdlib Require Import ZArith QArith Qround Lqa Lia.
From stdpp Require Import base gmap list strings.

(** ** PCM Framer: [scriptProcessor.onaudioprocess] *)

Module Framer.
Local Open Scope Q_scope.

(** ECMAScript [truncate]: drop the fractional part, towards zero. *)
Definition truncate (x : Q) : Z :=
  if Qle_bool 0 x then Qfloor x else Qceiling x.

(** ECMAScript [ToInt16], the conversion an [Int16Array] store applies. *)
Definition ToInt16 (x : Q) : Z :=
  let int16bit := (truncate x mod 65536)%Z in
  if (32768 <=? int16bit)%Z then (int16bit - 65536)%Z else int16bit.

(** [int16[i] = inputData[i] * 32768] *)
Definition pcm16 (sample : Q) : Z := ToInt16 (sample * 32768).

(** The loop [for (let i = 0; i < l; i++) int16[i] = inputData[i] * 32768]
    over [int16 = new Int16Array(l)], which starts zero-filled. *)
Definition fill_int16 (inputData : list Q) : list Z :=
  let l := length inputData in
  foldl (fun int16 i =>
           match inputData !! i with
           | Some x => <[i := pcm16 x]> int16
           | None => int16
           end)
        (replicate l 0%Z) (seq 0 l).

(** [Math.round]: the nearest integer, ties towards plus infinity. *)
Definition Math_round (x : Q) : Z := Qfloor (x + (1 # 2)).

(** The conversion in the words of the specification:
    [round(sample * 32768)]. *)
Definition spec_round_scaled (sample : Q) : Z := Math_round (sample * 32768).

End Framer.

(** ** State of the [App] component *)

(** ['user' | 'ai'] *)
Inductive Role := RoleUser | RoleAi.

(** [{ user: string; ai: string }], the type of both the [transcription]
    state and the [transcriptionRef] ref. *)
Record Transcription := { user : string; ai : string }.

(** [{ text: string, role: 'user' | 'ai' }] *)
Record Entry := { text : string; role : Role }.

(** An [AudioBuffer], of which the component reads the [duration] only. *)
Record AudioBuffer := { duration : Q }.

(** An [AudioBufferSourceNode] of the output context: its [buffer], the
    [when] argument [start] was called with, and whether [stop] was called. *)
Record SourceNode := { buffer : AudioBuffer; startTime : Q; stopped : bool }.

(** One part of [serverContent.modelTurn.parts]: [part.inlineData?.data]. *)
Record Part := { inlineData : option string }.

(** [message.serverContent] of a [LiveServerMessage]; absent optional fields
    are [None], [false] or the empty part list. *)
Record LiveServerMessage := {
  parts : list Part;
  inputTranscription : option string;
  outputTranscription : option string;
  turnComplete : bool;
  interrupted : bool
}.

Record App := {
  isActive : bool;
  isSyncing : bool;
  transcription : Transcription;
  history : list Entry;
  liveSession : option nat;
  nextStartTime : Q;
  sources : gset nat;
  transcriptionRef : Transcription;
  (* the world outside the component *)
  nodes : list SourceNode;
  closedSessions : list nat
}.

Definition emptyTranscription : Transcription := {| user := ""; ai := "" |}.

(** The component as first rendered: [useState] and [useRef] initial values. *)
Definition initialApp : App :=
  {| isActive := false; isSyncing := false;
     transcription := emptyTranscription; history := [];
     liveSession := None; nextStartTime := 0; sources := ∅;
     transcriptionRef := emptyTranscription;
     nodes := []; closedSessions := [] |}.

Definition setIsActive (v : bool) (st : App) : App :=
  {| isActive := v; isSyncing := isSyncing st;
     transcription := transcription st; history := history st;
     liveSession := liveSession st; nextStartTime := nextStartTime st;
     sources := sources st; transcriptionRef := transcriptionRef st;
     nodes := nodes st; closedSessions := closedSessions st |}.

Definition setIsSyncing (v : bool) (st : App) : App :=
  {| isActive := isActive st; isSyncing := v;
     transcription := transcription st; history := history st;
     liveSession := liveSession st; nextStartTime := nextStartTime st;
     sources := sources st; transcriptionRef := transcriptionRef st;
     nodes := nodes st; closedSessions := closedSessions st |}.

(** [setTranscription(f)] with an updater [f], or [f := fun _ => v]. *)
Definition setTranscription (f : Transcription -> Transcription) (st : App) : App :=
  {| isActive := isActive st; isSyncing := isSyncing st;
     transcription := f (transcription st); history := history st;
     liveSession := liveSession st; nextStartTime := nextStartTime st;
     sources := sources st; transcriptionRef := transcriptionRef st;
     nodes := nodes st; closedSessions := closedSessions st |}.

(** [setHistory(f)] *)
Definition setHistory (f : list Entry -> list Entry) (st : App) : App :=
  {| isActive := isActive st; isSyncing := isSyncing st;
     transcription := transcription st; history := f (history st);
     liveSession := liveSession st; nextStartTime := nextStartTime st;
     sources := sources st; transcriptionRef := transcriptionRef st;
     nodes := nodes st; closedSessions := closedSessions st |}.

Definition set_liveSession (v : option nat) (st : App) : App :=
  {| isActive := isActive st; isSyncing := isSyncing st;
     transcription := transcription st; history := history st;
     liveSession := v; nextStartTime := nextStartTime st;
     sources := sources st; transcriptionRef := transcriptionRef st;
     nodes := nodes st; closedSessions := closedSessions st |}.

Definition set_nextStartTime (v : Q) (st : App) : App :=
  {| isActive := isActive st; isSyncing := isSyncing st;
     transcription := transcription st; history := history st;
     liveSession := liveSession st; nextStartTime := v;
     sources := sources st; transcriptionRef := transcriptionRef st;
     nodes := nodes st; closedSessions := closedSessions st |}.

Definition set_sources (v : gset nat) (st : App) : App :=
  {| isActive := isActive st; isSyncing := isSyncing st;
     transcription := transcription st; history := history st;
     liveSession := liveSession st; nextStartTime := nextStartTime st;
     sources := v; transcriptionRef := transcriptionRef st;
     nodes := nodes st; closedSessions := closedSessions st |}.

Definition set_transcriptionRef (v : Transcription) (st : App) : App :=
  {| isActive := isActive st; isSyncing := isSyncing st;
     transcription := transcription st; history := history st;
     liveSession := liveSession st; nextStartTime := nextStartTime st;
     sources := sources st; transcriptionRef := v;
     nodes := nodes st; closedSessions := closedSessions st |}.

Definition set_nodes (v : list SourceNode) (st : App) : App :=
  {| isActive := isActive st; isSyncing := isSyncing st;
     transcription := transcription st; history := history st;
     liveSession := liveSession st; nextStartTime := nextStartTime st;
     sources := sources st; transcriptionRef := transcriptionRef st;
     nodes := v; closedSessions := closedSessions st |}.

Definition set_closedSessions (v : list nat) (st : App) : App :=
  {| isActive := isActive st; isSyncing := isSyncing st;
     transcription := transcription st; history := history st;
     liveSession := liveSession st; nextStartTime := nextStartTime st;
     sources := sources st; transcriptionRef := transcriptionRef st;
     nodes := nodes st; closedSessions := v |}.

(** ** JavaScript primitives the callbacks use *)

(** Truthiness of a string: every string but the empty one. *)
Definition truthy (s : string) : bool :=
  match s with
  | EmptyString => false
  | String _ _ => true
  end.

(** [Math.max(a, b)] *)
Definition Math_max (a b : Q) : Q :=
  match (a ?= b)%Q with
  | Lt => b
  | _ => a
  end.

(** [Array.prototype.slice(start)]: a negative [start] counts from the end,
    and the result is clamped to the bounds of the array. *)
Definition Array_slice {A} (start : Z) (l : list A) : list A :=
  let len := Z.of_nat (length l) in
  let k := if (start <? 0)%Z then Z.max (len + start) 0 else Z.min start len in
  drop (Z.to_nat k) l.

(** [s.stop()] *)
Definition stop (n : SourceNode) : SourceNode :=
  {| buffer := buffer n; startTime := startTime n; stopped := true |}.

(** [sources.current.forEach(s => { try { s.stop(); } catch (e) {} })] on the
    nodes of the output context: a failing [stop] is swallowed, so the loop
    always runs to its end. *)
Definition stopSources (srcs : gset nat) (ns : list SourceNode) : list SourceNode :=
  imap (fun i n => if decide (i ∈ srcs) then stop n else n) ns.

(** ** The callbacks *)

Section Component.

(** [data => decodeAudioData(decode(data), outCtx, 24000, 1)], imported from
    [./services/geminiService]: the buffer a part's payload decodes to. *)
Variable decodeAudioData : string -> AudioBuffer.

(** *** Playback scheduling: the audio part branch of [onmessage] *)

(** [nextStartTime.current = Math.max(nextStartTime.current, outCtx.currentTime)] *)
Definition clampCursor (currentTime : Q) (st : App) : App :=
  set_nextStartTime (Math_max (nextStartTime st) currentTime) st.

(** What follows [await decodeAudioData(...)]: create the source node, start
    it at the cursor, advance the cursor, add the node to [sources]. *)
Definition startSource (audioBuffer : AudioBuffer) (st : App) : App :=
  let source := length (nodes st) in
  let st := set_nodes (nodes st ++ [ {| buffer := audioBuffer;
                                       startTime := nextStartTime st;
                                       stopped := false |} ]) st in
  let st := set_nextStartTime (nextStartTime st + duration audioBuffer) st in
  set_sources ({[ source ]} ∪ sources st) st.

(** One iteration of the loop for a part with data in the serial case: the
    [await] resolves before any other callback runs.  The general case is
    [onmessage_begin] and [onmessage_resume] below, with [step] and [run]. *)
Definition scheduleChunk (currentTime : Q) (data : string) (st : App) : App :=
  startSource (decodeAudioData data) (clampCursor currentTime st).

(** The listener [() => sources.current.delete(source)] of ['ended']. *)
Definition onended (source : nat) (st : App) : App :=
  set_sources (sources st ∖ {[ source ]}) st.

(** *** Transcript reconciliation: the text branches of [onmessage] *)

(** [if (message.serverContent?.inputTranscription) { ... }] *)
Definition appendUser (t : string) (st : App) : App :=
  let ref := transcriptionRef st in
  let st := set_transcriptionRef {| user := user ref +:+ t; ai := ai ref |} st in
  setTranscription (fun prev => {| user := user prev +:+ t; ai := ai prev |}) st.

(** [if (message.serverContent?.outputTranscription) { ... }] *)
Definition appendModel (t : string) (st : App) : App :=
  let ref := transcriptionRef st in
  let st := set_transcriptionRef {| user := user ref; ai := ai ref +:+ t |} st in
  setTranscription (fun _ => {| user := ""; ai := ai (transcriptionRef st) |}) st.

(** The updater passed to [setHistory] at a turn boundary; [ref] is what
    [transcriptionRef.current] holds when React runs the updater. *)
Definition commitEntries (ref : Transcription) (prev : list Entry) : list Entry :=
  let newEntries := [] in
  let newEntries :=
    if truthy (user ref)
    then newEntries ++ [ {| text := user ref; role := RoleUser |} ]
    else newEntries in
  let newEntries :=
    if truthy (ai ref)
    then newEntries ++ [ {| text := ai ref; role := RoleAi |} ]
    else newEntries in
  Array_slice (-2) (prev ++ newEntries).

(** [if (message.serverContent?.turnComplete) { ... }]: the call of
    [setHistory] queues the updater, the two statements after it empty the
    displayed transcription and replace the ref, and the render that follows
    runs the updater, on the ref as it is by then. *)
Definition commitTurn (st : App) : App :=
  let st := setTranscription (fun _ => {| user := ""; ai := "" |}) st in
  let st := set_transcriptionRef {| user := ""; ai := "" |} st in
  setHistory (commitEntries (transcriptionRef st)) st.

(** [if (message.serverContent?.interrupted) { ... }] *)
Definition interrupt (st : App) : App :=
  let st := set_nodes (stopSources (sources st) (nodes st)) st in
  let st := set_sources ∅ st in
  set_nextStartTime 0 st.

(** The four [if]s of [onmessage] that follow the loop over the parts. *)
Definition afterParts (message : LiveServerMessage) (st : App) : App :=
  let st := match inputTranscription message with
            | Some t => appendUser t st
            | None => st
            end in
  let st := match outputTranscription message with
            | Some t => appendModel t st
            | None => st
            end in
  let st := if turnComplete message then commitTurn st else st in
  if interrupted message then interrupt st else st.

(** *** [onmessage] as the coroutine it is

    The handler suspends at [await decodeAudioData(...)], after the cursor
    was clamped; other callbacks may run before it resumes. *)

Record Suspended := {
  awaiting : string;
  remaining : list Part;
  message : LiveServerMessage
}.

(** The first part of the list that passes [if (part.inlineData?.data)]. *)
Fixpoint nextAudioPart (ps : list Part) : option (string * list Part) :=
  match ps with
  | [] => None
  | p :: rest =>
      match inlineData p with
      | Some data => if truthy data then Some (data, rest) else nextAudioPart rest
      | None => nextAudioPart rest
      end
  end.

(** Run the handler from the head of the loop over [ps] to its next
    suspension, or to its end. *)
Definition onmessage_from (currentTime : Q) (ps : list Part)
    (msg : LiveServerMessage) (st : App) : App * option Suspended :=
  match nextAudioPart ps with
  | Some (data, rest) =>
      (clampCursor currentTime st,
       Some {| awaiting := data; remaining := rest; message := msg |})
  | None => (afterParts msg st, None)
  end.

Definition onmessage_begin (currentTime : Q) (msg : LiveServerMessage)
    (st : App) : App * option Suspended :=
  onmessage_from currentTime (parts msg) msg st.

(** The decode of [awaiting k] completed: the handler continues. *)
Definition onmessage_resume (currentTime : Q) (k : Suspended)
    (st : App) : App * option Suspended :=
  onmessage_from currentTime (remaining k) (message k)
    (startSource (decodeAudioData (awaiting k)) st).

(** [onmessage] when every decode completes before anything else happens,
    the output clock reading [currentTime] throughout. *)
Fixpoint scheduleParts (currentTime : Q) (ps : list Part) (st : App) : App :=
  match ps with
  | [] => st
  | p :: rest =>
      match inlineData p with
      | Some data =>
          if truthy data
          then scheduleParts currentTime rest (scheduleChunk currentTime data st)
          else scheduleParts currentTime rest st
      | None => scheduleParts currentTime rest st
      end
  end.

Definition onmessage (currentTime : Q) (msg : LiveServerMessage) (st : App) : App :=
  afterParts msg (scheduleParts currentTime (parts msg) st).

(** Resume a handler again and again, at most [fuel] times. *)
Fixpoint resumeAll (fuel : nat) (currentTime : Q)
    (r : App * option Suspended) : App * option Suspended :=
  match fuel, r with
  | S fuel, (st, Some k) => resumeAll fuel currentTime (onmessage_resume currentTime k st)
  | _, _ => r
  end.

(** *** Session lifecycle *)

Definition stopSession (st : App) : App :=
  let st := setIsActive false st in
  let st := setIsSyncing false st in
  let st := match liveSession st with
            | Some session =>
                set_liveSession None
                  (set_closedSessions (closedSessions st ++ [session]) st)
            | None => st
            end in
  let st := set_nodes (stopSources (sources st) (nodes st)) st in
  let st := set_sources ∅ st in
  let st := set_nextStartTime 0 st in
  let st := setTranscription (fun _ => {| user := ""; ai := "" |}) st in
  set_transcriptionRef {| user := ""; ai := "" |} st.

(** [startSession] up to its first [await]: a click while active is a stop. *)
Definition startSession (st : App) : App :=
  if isActive st then stopSession st else setIsSyncing true st.

(** [liveSession.current = await sessionPromise] *)
Definition startSession_connected (session : nat) (st : App) : App :=
  set_liveSession (Some session) st.

(** The [catch] of [startSession]. *)
Definition startSession_failed (st : App) : App := setIsSyncing false st.

Definition onopen (st : App) : App := setIsSyncing false (setIsActive true st).

Definition onerror (st : App) : App := stopSession st.

Definition onclose (st : App) : App := setIsSyncing false (setIsActive false st).

(** *** Runs *)

(** The scheduler operations in the serial case (no callback runs while a
    decode is awaited), each with the reading of the output clock when it is
    carried out. *)
Inductive SchedulerOp :=
| OpSchedule (data : string)
| OpInterrupt
| OpStop.

Definition applyOp (st : App) (e : Q * SchedulerOp) : App :=
  match e.2 with
  | OpSchedule data => scheduleChunk e.1 data st
  | OpInterrupt => interrupt st
  | OpStop => stopSession st
  end.

Definition runOps (trace : list (Q * SchedulerOp)) (st : App) : App :=
  foldl applyOp st trace.

(** Chunks scheduled one after the other, each decoded and started before
    the next is scheduled, each with its clock reading. *)
Definition scheduleAll (chunks : list (Q * string)) (st : App) : App :=
  foldl (fun st c => scheduleChunk c.1 c.2 st) st chunks.

(** The nodes [st] has that [st0] had not: those created in between. *)
Definition created (st0 st : App) : list SourceNode :=
  drop (length (nodes st0)) (nodes st).

(** The nodes a run of [scheduleAll] creates, from the cursor it starts
    with. *)
Fixpoint planned (cursor : Q) (chunks : list (Q * string)) : list SourceNode :=
  match chunks with
  | [] => []
  | c :: rest =>
      let s := Math_max cursor c.1 in
      {| buffer := decodeAudioData c.2; startTime := s; stopped := false |}
        :: planned (s + duration (decodeAudioData c.2))%Q rest
  end.

(** The transcript operations. *)
Inductive TranscriptOp :=
| OpAppendUser (t : string)
| OpAppendModel (t : string)
| OpCommitTurn.

Definition applyTranscriptOp (st : App) (op : TranscriptOp) : App :=
  match op with
  | OpAppendUser t => appendUser t st
  | OpAppendModel t => appendModel t st
  | OpCommitTurn => commitTurn st
  end.

Definition runTranscript (ops : list TranscriptOp) (st : App) : App :=
  foldl applyTranscriptOp st ops.

End Component.

(** ** Definitions the statements below use *)

(** A message that carries the interruption signal and nothing else. *)
Definition interruptedMessage : LiveServerMessage :=
  {| parts := []; inputTranscription := None; outputTranscription := None;
     turnComplete := false; interrupted := true |}.

(** A message with one audio part. *)
Definition audioMessage (data : string) : LiveServerMessage :=
  {| parts := [ {| inlineData := Some data |} ];
     inputTranscription := None; outputTranscription := None;
     turnComplete := false; interrupted := false |}.

(** A decoder for the examples: 16-bit mono at 24 kHz, two payload characters
    per sample here. *)
Definition exampleDecoder (data : string) : AudioBuffer :=
  {| duration := Z.of_nat (String.length data) # 48000 |}.

(** A session in full swing: opened, connected as session [7], one chunk
    scheduled with the clock at [1], the user's words partly transcribed. *)
Definition liveExample : App :=
  let st := startSession initialApp in
  let st := onopen st in
  let st := startSession_connected 7 st in
  onmessage exampleDecoder 1
    {| parts := [ {| inlineData := Some "abcd" |} ];
       inputTranscription := Some "hel"; outputTranscription := None;
       turnComplete := false; interrupted := false |} st.

(** "The last [n] entries", in the words of the specification. *)
Definition spec_last_entries {A} (n : nat) (l : list A) : list A :=
  reverse (take n (reverse l)).

(** An append for the given role. *)
Definition appendOp (a : Role * string) : TranscriptOp :=
  match a.1 with
  | RoleUser => OpAppendUser a.2
  | RoleAi => OpAppendModel a.2
  end.

(** What the exposed state and the accumulators have in common. *)
Definition displayInv (st : App) : Prop :=
  ai (transcription st) = ai (transcriptionRef st)
  /\ exists hidden, user (transcriptionRef st) = hidden +:+ user (transcription st).

(** ** The component as an event system *)

(** The component between two callbacks: its state and the [onmessage]
    handlers suspended at their [await], in the order they were suspended. *)
Record System := { app : App; pending : list Suspended }.

Definition initialSystem : System := {| app := initialApp; pending := [] |}.

(** What can happen to the mounted component. *)
Inductive Event :=
| EvClick
| EvConnected (session : nat)
| EvFailed
| EvOpen
| EvMessage (currentTime : Q) (msg : LiveServerMessage)
| EvDecoded (currentTime : Q) (handler : nat)
| EvError
| EvClose
| EvEnded (source : nat).

Definition withApp (f : App -> App) (sys : System) : System :=
  {| app := f (app sys); pending := pending sys |}.

(** A handler ran up to its next [await], or to its end. *)
Definition suspend (r : App * option Suspended) (others : list Suspended) : System :=
  {| app := r.1; pending := others ++ option_list r.2 |}.

Section EventSystem.

Variable decodeAudioData : string -> AudioBuffer.

(** One callback, run to its end or to its next [await].  [EvClick] is
    [onClick={startSession}]; [EvConnected] and [EvFailed] are the two ways
    [await sessionPromise] ends; [EvDecoded now i] resumes the [i]-th
    suspended handler, decodes completing in any order. *)
Definition step (sys : System) (ev : Event) : System :=
  match ev with
  | EvClick => withApp startSession sys
  | EvConnected session => withApp (startSession_connected session) sys
  | EvFailed => withApp startSession_failed sys
  | EvOpen => withApp onopen sys
  | EvMessage now msg => suspend (onmessage_begin now msg (app sys)) (pending sys)
  | EvDecoded now i =>
      match pending sys !! i with
      | Some k =>
          suspend (onmessage_resume decodeAudioData now k (app sys))
                  (delete i (pending sys))
      | None => sys
      end
  | EvError => withApp onerror sys
  | EvClose => withApp onclose sys
  | EvEnded source => withApp (onended source) sys
  end.

Definition run (evs : list Event) (sys : System) : System := foldl step sys evs.

End EventSystem.

(** Every member of [sources] is a node of the output context on which
    [stop] was not called. *)
Definition sourcesActive (st : App) : Prop :=
  forall i, i ∈ sources st ->
    exists n, nodes st !! i = Some n /\ stopped n = false.

(** The readings of the output clock in a run: one per message handled and
    one per decode completed. *)
Definition clockReading (ev : Event) : list Q :=
  match ev with
  | EvMessage now _ | EvDecoded now _ => [now]
  | _ => []
  end.

Definition clockReadings (evs : list Event) : list Q := evs ≫= clockReading.

(** Events that cannot reset the cursor: no click (a stop when the session is
    active), no remote error, no message with the interruption signal. *)
Definition quiet (ev : Event) : bool :=
  match ev with
  | EvClick | EvError => false
  | EvMessage _ msg => negb (interrupted msg)
  | _ => true
  end.

(** No suspended handler is that of a message with the interruption
    signal. *)
Definition quietPending (ks : list Suspended) : Prop :=
  Forall (fun k => interrupted (message k) = false) ks.



(** The payloads of the parts that pass [if (part.inlineData?.data)]. *)
Definition audioData (ps : list Part) : list string :=
  omap (fun p => match inlineData p with
                 | Some data => if truthy data then Some data else None
                 | None => None
                 end) ps.

(** The fragments of one role, joined in the order of arrival. *)
Definition sameRole (a b : Role) : bool :=
  match a, b with
  | RoleUser, RoleUser | RoleAi, RoleAi => true
  | _, _ => false
  end.

Definition fragments (r : Role) (appends : list (Role * string)) : string :=
  foldr (fun a acc => if sameRole a.1 r then a.2 +:+ acc else acc) "" appends.

(** *** What the render shows of the transcript *)

(** [a || b] on strings. *)
Definition js_or (a b : string) : string := if truthy a then a else b.

(** The "Context Memory" lines: [history.slice(-1).map(h => h.text)]. *)
Definition contextMemory (h : list Entry) : list string :=
  text <$> Array_slice (-1) h.

(** The "Active Dialogue" paragraph: rendered when
    [transcription.user || transcription.ai] is truthy, with the text
    [transcription.ai || transcription.user]. *)
Definition activeDialogue (tr : Transcription) : option string :=
  if truthy (js_or (user tr) (ai tr))
  then Some (js_or (ai tr) (user tr))
  else None.

(** * Properties *)

(** ** PCM Framer *)

Section FramerClaims.
Import Framer.
Local Open Scope Q_scope.

Lemma truncate_comp (x y : Q) : x == y -> truncate x = truncate y.
Proof.
  intros E. unfold truncate.
  rewrite (Qfloor_comp _ _ E), (Qceiling_comp _ _ E).
  destruct (Qle_bool 0 x) eqn:Hx, (Qle_bool 0 y) eqn:Hy; try reflexivity.
  - apply Qle_bool_iff in Hx. rewrite E in Hx. apply Qle_bool_iff in Hx. congruence.
  - apply Qle_bool_iff in Hy. rewrite <- E in Hy. apply Qle_bool_iff in Hy. congruence.
Qed.

Lemma truncate_scaled_range (s : Q) :
  -1 <= s -> s < 1 -> (-32768 <= truncate (s * 32768) <= 32767)%Z.
Proof.
  intros Hlo Hhi. unfold truncate.
  destruct (Qle_bool 0 (s * 32768)) eqn:Hs.
  - apply Qle_bool_iff in Hs. split.
    + transitivity (Qfloor 0); [ now vm_compute | now apply Qfloor_resp_le ].
    + assert (H : (Qfloor (s * 32768) < 32768)%Z); [ | lia ].
      rewrite Zlt_Qlt. eapply Qle_lt_trans; [ apply Qfloor_le | ].
      change (inject_Z 32768) with 32768. lra.
  - assert (Hneg : s * 32768 < 0).
    { apply Qnot_le_lt. intros H. apply Qle_bool_iff in H. congruence. }
    split.
    + change (-32768)%Z with (Qceiling (-32768 # 1)).
      apply Qceiling_resp_le. lra.
    + assert (H : (Qceiling (s * 32768) - 1 < 0)%Z); [ | lia ].
      rewrite Zlt_Qlt. eapply Qlt_trans; [ apply Qceiling_lt | exact Hneg ].
Qed.

Lemma ToInt16_small (x : Q) :
  (-32768 <= truncate x <= 32767)%Z -> ToInt16 x = truncate x.
Proof.
  intros H. unfold ToInt16. cbv zeta.
  destruct (Z_lt_le_dec (truncate x) 0) as [Hn | Hp].
  - replace (truncate x mod 65536)%Z with (truncate x + 65536)%Z.
    + destruct (Z.leb_spec 32768 (truncate x + 65536)); lia.
    + apply Z.mod_unique with (q := (-1)%Z); lia.
  - rewrite Z.mod_small by lia.
    destruct (Z.leb_spec 32768 (truncate x)); lia.
Qed.

Lemma fill_int16_map (inputData : list Q) :
  fill_int16 inputData = pcm16 <$> inputData.
Proof.
  unfold fill_int16.
  assert (G : forall (done todo : list Q),
    foldl (fun int16 i =>
             match (done ++ todo) !! i with
             | Some x => <[i := pcm16 x]> int16
             | None => int16
             end)
          ((pcm16 <$> done) ++ replicate (length todo) 0%Z)
          (seq (length done) (length todo))
    = pcm16 <$> (done ++ todo)).
  { intros done todo. revert done.
    induction todo as [ | x todo IH ]; intros done; simpl.
    - now rewrite !app_nil_r.
    - rewrite list_lookup_middle by reflexivity.
      replace (<[length done := pcm16 x]> ((pcm16 <$> done) ++ 0%Z :: replicate (length todo) 0%Z))
        with ((pcm16 <$> (done ++ [x])) ++ replicate (length todo) 0%Z).
      + specialize (IH (done ++ [x])).
        rewrite <- app_assoc in IH. simpl in IH.
        rewrite length_app in IH. simpl in IH.
        replace (length done + 1)%nat with (S (length done)) in IH by lia.
        exact IH.
      + rewrite fmap_app. simpl. rewrite <- app_assoc. simpl.
        rewrite insert_app_r_alt by (rewrite length_fmap; lia).
        rewrite length_fmap, Nat.sub_diag. reflexivity. }
  exact (G [] inputData).
Qed.

(** C3, as stated, fails: the sample [3 * 2^-17], a binary32 value in
    [[-1, 1)], scales to [3/4]; the [Int16Array] store drops the fraction
    and keeps [0], while [round(sample * 32768)] is [1]. *)
Lemma pcm16_is_not_round :
  ~ (forall sample : Q, -1 <= sample -> sample < 1 ->
       pcm16 sample = spec_round_scaled sample).
Proof.
  intros H.
  assert (Hlo : -1 <= 3 # 131072) by (vm_compute; discriminate).
  assert (Hhi : 3 # 131072 < 1) by reflexivity.
  specialize (H (3 # 131072) Hlo Hhi).
  vm_compute in H. discriminate H.
Qed.

(** C3, amended: for every sample in [[-1, 1)] the 16-bit value stored is
    [sample * 32768] with its fraction dropped (rounded towards zero), it
    needs no wrap-around, being within [-32768 .. 32767], and it is a
    function of the sample's value alone. *)
Theorem pcm16_truncates (sample : Q) :
  -1 <= sample -> sample < 1 ->
  pcm16 sample = truncate (sample * 32768)
  /\ (-32768 <= pcm16 sample <= 32767)%Z
  /\ (forall sample' : Q, sample' == sample -> pcm16 sample' = pcm16 sample)
  /\ (forall inputData i, inputData !! i = Some sample ->
        fill_int16 inputData !! i = Some (pcm16 sample)).
Proof.
  intros Hlo Hhi.
  pose proof (truncate_scaled_range sample Hlo Hhi) as Hr.
  assert (E : pcm16 sample = truncate (sample * 32768))
    by (unfold pcm16; now apply ToInt16_small).
  split; [ exact E | ]. split; [ now rewrite E | ]. split.
  - intros s' Hs'. unfold pcm16, ToInt16.
    rewrite (truncate_comp (s' * 32768) (sample * 32768)); [ reflexivity | ].
    now rewrite Hs'.
  - intros inputData i Hi. rewrite fill_int16_map, list_lookup_fmap, Hi.
    reflexivity.
Qed.

Lemma pcm16_truncates_witness :
  pcm16 (-3 # 131072) = 0%Z /\ fill_int16 [1 # 2; -3 # 131072] !! 1%nat = Some 0%Z.
Proof.
  assert (Hlo : -1 <= -3 # 131072) by (vm_compute; discriminate).
  assert (Hhi : -3 # 131072 < 1) by reflexivity.
  destruct (pcm16_truncates (-3 # 131072) Hlo Hhi) as (E & _ & _ & F).
  split.
  - rewrite E. reflexivity.
  - rewrite (F [1 # 2; -3 # 131072] 1%nat eq_refl), E. reflexivity.
Defined.

End FramerClaims.

(** ** Helper facts about the primitives *)

Lemma string_app_empty_r (s : string) : s +:+ "" = s.
Proof.
  induction s as [ | c s IH ]; [ reflexivity | ].
  change (String c s +:+ "") with (String c (s +:+ "")). now rewrite IH.
Qed.

Lemma string_app_assoc (s t u : string) : (s +:+ t) +:+ u = s +:+ (t +:+ u).
Proof.
  induction s as [ | c s IH ]; [ reflexivity | ].
  change (String c s +:+ t) with (String c (s +:+ t)).
  change (String c (s +:+ t) +:+ u) with (String c ((s +:+ t) +:+ u)).
  change (String c s +:+ (t +:+ u)) with (String c (s +:+ (t +:+ u))).
  now rewrite IH.
Qed.

Lemma truthy_nonempty (s : string) : truthy s = true <-> s ≠ "".
Proof. destruct s; simpl; split; congruence. Qed.

Lemma Math_max_ge_l (a b : Q) : (a <= Math_max a b)%Q.
Proof.
  unfold Math_max. destruct (a ?= b)%Q eqn:E; try apply Qle_refl.
  apply Qlt_le_weak. now rewrite Qlt_alt.
Qed.

Lemma Math_max_ge_r (a b : Q) : (b <= Math_max a b)%Q.
Proof.
  unfold Math_max. destruct (a ?= b)%Q eqn:E; try apply Qle_refl.
  - apply Qeq_alt in E. rewrite E. apply Qle_refl.
  - apply Qlt_le_weak. now apply Qgt_alt in E.
Qed.

(** The cursor is kept when the clock has not passed it. *)
Lemma Math_max_keep (a b : Q) : (b <= a)%Q -> Math_max a b = a.
Proof.
  intros H. unfold Math_max. destruct (a ?= b)%Q eqn:E; try reflexivity.
  apply Qlt_alt in E. exfalso. apply (Qlt_irrefl a). eapply Qlt_le_trans; eauto.
Qed.

(** The clock is taken, up to equality of rationals, when it has reached
    the cursor. *)
Lemma Math_max_clock (a b : Q) : (a <= b)%Q -> (Math_max a b == b)%Q.
Proof.
  intros H. unfold Math_max. destruct (a ?= b)%Q eqn:E.
  - now apply Qeq_alt.
  - reflexivity.
  - apply Qgt_alt in E. exfalso. apply (Qlt_irrefl a). eapply Qle_lt_trans; eauto.
Qed.

Lemma Array_slice_neg2_length {A} (l : list A) :
  length (Array_slice (-2) l) = Nat.min 2 (length l).
Proof.
  unfold Array_slice. change (-2 <? 0)%Z with true. cbv iota zeta.
  rewrite length_drop. lia.
Qed.

Lemma Array_slice_suffix {A} (start : Z) (l : list A) :
  Array_slice start l `suffix_of` l.
Proof. unfold Array_slice. apply suffix_drop. Qed.

Lemma Array_slice_neg2_short {A} (l : list A) :
  length l <= 2 -> Array_slice (-2) l = l.
Proof.
  intros H. unfold Array_slice. change (-2 <? 0)%Z with true. cbv iota zeta.
  replace (Z.to_nat _) with 0 by lia. reflexivity.
Qed.

Lemma stopSources_length srcs ns : length (stopSources srcs ns) = length ns.
Proof. unfold stopSources. apply length_imap. Qed.

Lemma stopSources_lookup srcs ns i :
  stopSources srcs ns !! i =
  (fun n => if decide (i ∈ srcs) then stop n else n) <$> ns !! i.
Proof. unfold stopSources. apply list_lookup_imap. Qed.

(** Stopping changes neither when a node was started nor what it plays. *)
Lemma stopSources_started srcs ns i n :
  ns !! i = Some n ->
  exists n', stopSources srcs ns !! i = Some n'
             /\ startTime n' = startTime n /\ buffer n' = buffer n.
Proof.
  intros H. rewrite stopSources_lookup, H. simpl.
  destruct (decide (i ∈ srcs)); eexists; split; try reflexivity; split; reflexivity.
Qed.

(** Every member of the set is stopped. *)
Lemma stopSources_stops srcs ns i n :
  i ∈ srcs -> ns !! i = Some n -> stopSources srcs ns !! i = Some (stop n).
Proof.
  intros Hi H. rewrite stopSources_lookup, H. simpl.
  destruct (decide (i ∈ srcs)); [ reflexivity | contradiction ].
Qed.

(** ** Playback Scheduler *)

Section SchedulerFacts.
Variable dec : string -> AudioBuffer.

Lemma scheduleChunk_nodes t data st :
  nodes (scheduleChunk dec t data st) =
  nodes st ++ [ {| buffer := dec data;
                  startTime := Math_max (nextStartTime st) t;
                  stopped := false |} ].
Proof. reflexivity. Qed.

Lemma scheduleChunk_cursor t data st :
  nextStartTime (scheduleChunk dec t data st) =
  (Math_max (nextStartTime st) t + duration (dec data))%Q.
Proof. reflexivity. Qed.

Lemma scheduleChunk_sources t data st :
  sources (scheduleChunk dec t data st) = {[ length (nodes st) ]} ∪ sources st.
Proof. reflexivity. Qed.

Lemma afterParts_interrupted msg st :
  interrupted msg = true -> exists st1, afterParts msg st = interrupt st1.
Proof. intros H. unfold afterParts. rewrite H. eexists. reflexivity. Qed.

End SchedulerFacts.

(** C1, as stated, fails: with the output clock at [5], handling the
    interruption signal leaves the cursor at [0], not at [5]. *)
Lemma interrupt_cursor_is_not_clock :
  ~ (forall dec currentTime msg st,
       interrupted msg = true ->
       let st' := onmessage dec currentTime msg st in
       sources st' = ∅ /\ (nextStartTime st' == currentTime)%Q).
Proof.
  intros H.
  destruct (H exampleDecoder 5%Q interruptedMessage initialApp eq_refl) as [_ E].
  vm_compute in E. discriminate E.
Qed.

(** C1, amended: in every state and at every clock reading, handling a
    message that carries the interruption signal leaves [sources] empty and
    the cursor at [0], not at the clock's time.  This is so when the handler
    runs through, and as well when it was suspended on the message's audio
    parts and runs to its end later. *)
Theorem interrupt_clears_and_zeroes dec (currentTime : Q) msg st :
  interrupted msg = true ->
  let st' := onmessage dec currentTime msg st in
  sources st' = ∅
  /\ nextStartTime st' = 0%Q
  /\ (forall (now : Q) ps st1 st2,
        onmessage_from now ps msg st1 = (st2, None) ->
        sources st2 = ∅ /\ nextStartTime st2 = 0%Q)
  /\ (forall (now : Q) k st1 st2,
        message k = msg ->
        onmessage_resume dec now k st1 = (st2, None) ->
        sources st2 = ∅ /\ nextStartTime st2 = 0%Q).
Proof.
  intros H st'. subst st'. unfold onmessage.
  destruct (afterParts_interrupted msg (scheduleParts dec currentTime (parts msg) st) H)
    as [st1 ->].
  split; [ reflexivity | ]. split; [ reflexivity | ].
  assert (G : forall (now : Q) ps st1 st2,
            onmessage_from now ps msg st1 = (st2, None) ->
            sources st2 = ∅ /\ nextStartTime st2 = 0%Q).
  { intros now ps sa sb Hrun. unfold onmessage_from in Hrun.
    destruct (nextAudioPart ps) as [[data rest] | ]; [ discriminate Hrun | ].
    injection Hrun as <-.
    destruct (afterParts_interrupted msg sa H) as [sc ->]. split; reflexivity. }
  split; [ exact G | ].
  intros now k sa sb Hk Hrun. unfold onmessage_resume in Hrun. rewrite Hk in Hrun.
  exact (G _ _ _ _ Hrun).
Qed.

Lemma interrupt_clears_and_zeroes_witness :
  let st := scheduleChunk exampleDecoder 1 "abcd" initialApp in
  let st' := onmessage exampleDecoder 5 interruptedMessage st in
  sources st ≠ ∅ /\ sources st' = ∅ /\ nextStartTime st' = 0%Q.
Proof.
  intros st st'.
  destruct (interrupt_clears_and_zeroes exampleDecoder 5 interruptedMessage st eq_refl)
    as (Hs & Hc & _ & _).
  split; [ | split; [ exact Hs | exact Hc ] ].
  subst st. rewrite scheduleChunk_sources. set_solver.
Defined.

(** ** Session teardown *)

(** What [stopSession] establishes, whatever the state. *)
Lemma stopSession_teardown (st : App) :
  let st' := stopSession st in
  isActive st' = false /\ isSyncing st' = false
  /\ liveSession st' = None
  /\ closedSessions st' = closedSessions st ++ option_list (liveSession st)
  /\ sources st' = ∅
  /\ nextStartTime st' = 0%Q
  /\ transcription st' = emptyTranscription
  /\ transcriptionRef st' = emptyTranscription
  /\ history st' = history st
  /\ (forall i n, i ∈ sources st -> nodes st !! i = Some n ->
        nodes st' !! i = Some (stop n)).
Proof.
  unfold stopSession. destruct st as [a s t h [session | ] c src r ns cl]; simpl;
    repeat split; try reflexivity; try (now rewrite app_nil_r);
    intros i n Hi Hn; now apply stopSources_stops.
Qed.

(** C2: the remote-error path is the full teardown, the remote-close path is
    not.  In [liveExample], [onerror] closes session [7], empties [sources],
    zeroes the cursor and clears both accumulators; [onclose] resets the two
    flags and leaves the session handle, the playing source, the cursor and
    the accumulated user text behind, so that the first user fragment of the
    next session is shown after the leftover text. *)
Theorem onclose_skips_teardown :
  let e := onerror liveExample in
  let c := onclose liveExample in
  (liveSession e = None /\ closedSessions e = [7] /\ sources e = ∅
   /\ nextStartTime e = 0%Q
   /\ transcriptionRef e = emptyTranscription
   /\ transcription e = emptyTranscription)
  /\ (isActive c = false /\ isSyncing c = false)
  /\ (liveSession c = Some 7 /\ closedSessions c = [] /\ sources c = {[ 0 ]}
      /\ nextStartTime c = nextStartTime liveExample
      /\ ~ (nextStartTime c == 0)%Q
      /\ transcriptionRef c = {| user := "hel"; ai := "" |}
      /\ transcription c = {| user := "hel"; ai := "" |})
  /\ (let next := appendUser "lo" (onopen (startSession c)) in
      transcriptionRef next = {| user := "hello"; ai := "" |}
      /\ transcription next = {| user := "hello"; ai := "" |}).
Proof.
  cbv zeta. split; [ | split; [ | split ] ].
  - destruct (stopSession_teardown liveExample)
      as (_ & _ & H1 & H2 & H3 & H4 & H5 & H6 & _).
    unfold onerror. repeat split; assumption.
  - split; reflexivity.
  - repeat split; try reflexivity. intros E. vm_compute in E. discriminate E.
  - split; reflexivity.
Qed.

(** ** Transcript Reconciler *)

Lemma Array_slice_neg2_last {A} (l : list A) :
  Array_slice (-2) l = spec_last_entries 2 l.
Proof.
  unfold Array_slice, spec_last_entries.
  change (-2 <? 0)%Z with true. cbv iota zeta.
  replace (Z.to_nat (Z.max (Z.of_nat (length l) + -2) 0)) with (length l - 2) by lia.
  rewrite take_reverse, reverse_involutive. reflexivity.
Qed.

(** The entries a commit appends: one per non-empty buffer, the user's
    first. *)
Lemma commitEntries_appended (ref : Transcription) (prev : list Entry) :
  commitEntries ref prev =
  Array_slice (-2)
    (prev ++ filter (fun e => text e ≠ "")
               [ {| text := user ref; role := RoleUser |};
                 {| text := ai ref; role := RoleAi |} ]).
Proof.
  unfold commitEntries. destruct ref as [[ | c u ] [ | d m ]]; reflexivity.
Qed.

(** Run on the emptied ref, the updater appends nothing. *)
Remark commitEntries_on_emptied_ref (prev : list Entry) :
  commitEntries {| user := ""; ai := "" |} prev = Array_slice (-2) prev.
Proof. unfold commitEntries. simpl. now rewrite app_nil_r. Qed.

(** C4: the turn is lost.  The updater is written to append one entry per
    non-empty buffer, the user's first, and applied to the accumulators of
    the turn it would: on ["hello"] and an empty history it yields the one
    user entry.  But it runs after the handler has replaced the ref by an
    empty one, so whatever the accumulators held, the handler leaves the
    history as it was, cut to its last two entries, with nothing appended;
    the accumulators are cleared all the same. *)
Theorem commitTurn_loses_the_turn (st : App) :
  history (commitTurn st) = Array_slice (-2) (history st)
  /\ (length (history st) <= 2 -> history (commitTurn st) = history st)
  /\ transcriptionRef (commitTurn st) = {| user := ""; ai := "" |}
  /\ transcription (commitTurn st) = {| user := ""; ai := "" |}
  /\ (let heard := onmessage exampleDecoder 0
                      {| parts := []; inputTranscription := Some "hello";
                         outputTranscription := None;
                         turnComplete := false; interrupted := false |}
                      initialApp in
      let turned := onmessage exampleDecoder 1
                      {| parts := []; inputTranscription := None;
                         outputTranscription := None;
                         turnComplete := true; interrupted := false |}
                      heard in
      transcriptionRef heard = {| user := "hello"; ai := "" |}
      /\ history turned = []
      /\ transcriptionRef turned = {| user := ""; ai := "" |})
  /\ history (commitTurn
                (set_transcriptionRef {| user := "hello"; ai := "" |} initialApp)) = []
  /\ history (commitTurn
                (set_transcriptionRef {| user := "hi"; ai := "hello there" |}
                   initialApp)) = []
  /\ commitEntries {| user := "hello"; ai := "" |} [] =
       [ {| text := "hello"; role := RoleUser |} ]
  /\ commitEntries {| user := "hi"; ai := "hello there" |} [] =
       [ {| text := "hi"; role := RoleUser |};
         {| text := "hello there"; role := RoleAi |} ].
Proof.
  assert (H : history (commitTurn st) = Array_slice (-2) (history st)).
  { unfold commitTurn. simpl. apply commitEntries_on_emptied_ref. }
  split; [ exact H | ]. split.
  - intros Hle. rewrite H. now apply Array_slice_neg2_short.
  - repeat split; reflexivity.
Qed.

Lemma commitTurn_history (st : App) :
  history (commitTurn st) = Array_slice (-2) (history st).
Proof. unfold commitTurn. simpl. apply commitEntries_on_emptied_ref. Qed.

Lemma commitEntries_length (ref : Transcription) (prev : list Entry) :
  length (commitEntries ref prev) <= 2.
Proof. rewrite commitEntries_appended, Array_slice_neg2_length. lia. Qed.

Lemma commitTurn_history_length (st : App) : length (history (commitTurn st)) <= 2.
Proof. rewrite commitTurn_history, Array_slice_neg2_length. lia. Qed.

Lemma runTranscript_snoc ops op st :
  runTranscript (ops ++ [op]) st = applyTranscriptOp (runTranscript ops st) op.
Proof. unfold runTranscript. now rewrite foldl_app. Qed.

(** C6: after every sequence of appends and turn commits in a session the
    history holds at most two entries, and a single commit bounds it whatever
    it was before.  The bound is the updater's: whatever the ref holds when
    React runs it, what it returns is the end of the old history followed by
    the entries it makes of the ref, at most two long, so that the entries it
    drops are the oldest ones. *)
Theorem history_bounded (ops : list TranscriptOp) (st : App)
    (ref : Transcription) (prev : list Entry) :
  length (history (runTranscript ops initialApp)) <= 2
  /\ length (history (commitTurn st)) <= 2
  /\ length (commitEntries ref prev) <= 2
  /\ (exists evicted appended,
        prev ++ appended = evicted ++ commitEntries ref prev
        /\ length (commitEntries ref prev) = Nat.min 2 (length (prev ++ appended))
        /\ appended = filter (fun e => text e ≠ "")
                        [ {| text := user ref; role := RoleUser |};
                          {| text := ai ref; role := RoleAi |} ]).
Proof.
  split; [ | split; [ | split ] ].
  - induction ops as [ | op ops IH ] using rev_ind; [ simpl; lia | ].
    rewrite runTranscript_snoc. destruct op; simpl.
    + exact IH.
    + exact IH.
    + apply commitTurn_history_length.
  - apply commitTurn_history_length.
  - apply commitEntries_length.
  - rewrite commitEntries_appended.
    set (appended := filter _ _).
    destruct (Array_slice_suffix (-2) (prev ++ appended)) as [evicted E].
    exists evicted, appended. split; [ exact E | ].
    split; [ apply Array_slice_neg2_length | reflexivity ].
Qed.

(** C9, as stated, fails: after [appendUser "hi"] and [appendModel "yo"] the
    user accumulator holds ["hi"] and the exposed user text is empty; the
    [appendModel] call is what erased it. *)
Lemma display_is_not_accumulator :
  ~ (forall appends : list (Role * string),
       let st := runTranscript (appendOp <$> appends) initialApp in
       transcription st = transcriptionRef st
       /\ forall t, user (transcription (appendModel t st)) = user (transcription st)).
Proof.
  intros H.
  destruct (H [ (RoleUser, "hi"); (RoleAi, "yo") ]) as [E _].
  vm_compute in E. discriminate E.
Qed.

Lemma display_erased_by_appendModel :
  let st := appendUser "hi" initialApp in
  user (transcription st) = "hi"
  /\ user (transcription (appendModel "yo" st)) = ""
  /\ user (transcriptionRef (appendModel "yo" st)) = "hi".
Proof. repeat split; reflexivity. Qed.

Lemma displayInv_initial : displayInv initialApp.
Proof. split; [ reflexivity | ]. exists "". reflexivity. Qed.

Lemma displayInv_step op st : displayInv st -> displayInv (applyTranscriptOp st op).
Proof.
  intros [Hai [hidden Hu]]. destruct op as [t | t | ]; simpl.
  - split; [ exact Hai | ]. exists hidden. simpl.
    now rewrite Hu, string_app_assoc.
  - split; [ reflexivity | ]. exists (user (transcriptionRef st)). simpl.
    now rewrite string_app_empty_r.
  - split; [ reflexivity | ]. exists "". reflexivity.
Qed.

Lemma displayInv_run ops : displayInv (runTranscript ops initialApp).
Proof.
  induction ops as [ | op ops IH ] using rev_ind; [ apply displayInv_initial | ].
  rewrite runTranscript_snoc. now apply displayInv_step.
Qed.

Lemma appendUser_only_run (ts : list string) :
  transcription (runTranscript (OpAppendUser <$> ts) initialApp) =
  transcriptionRef (runTranscript (OpAppendUser <$> ts) initialApp).
Proof.
  induction ts as [ | t ts IH ] using rev_ind; [ reflexivity | ].
  rewrite fmap_app. simpl. rewrite runTranscript_snoc. simpl.
  unfold appendUser. simpl. now rewrite IH.
Qed.

(** C9, amended: after any sequence of [appendUser], [appendModel] and
    [commitTurn] calls of a session, the exposed model text equals the model
    accumulator and the exposed user text is an end of the user accumulator:
    all of it as long as only user text has arrived, and from then on what
    arrived since the last [appendModel], for an [appendModel] call empties
    the exposed user text and keeps the user accumulator as it is, and an
    [appendUser] call extends both by the same fragment. *)
Theorem display_follows_accumulators (ops : list TranscriptOp) (ts : list string) :
  let st := runTranscript ops initialApp in
  ai (transcription st) = ai (transcriptionRef st)
  /\ (exists hidden,
        user (transcriptionRef st) = hidden +:+ user (transcription st))
  /\ transcription (runTranscript (OpAppendUser <$> ts) initialApp) =
     transcriptionRef (runTranscript (OpAppendUser <$> ts) initialApp)
  /\ (forall t,
        user (transcription (appendModel t st)) = ""
        /\ user (transcriptionRef (appendModel t st)) = user (transcriptionRef st)
        /\ ai (transcription (appendModel t st)) = ai (transcriptionRef st) +:+ t
        /\ ai (transcriptionRef (appendModel t st)) = ai (transcriptionRef st) +:+ t)
  /\ (forall t,
        user (transcription (appendUser t st)) = user (transcription st) +:+ t
        /\ user (transcriptionRef (appendUser t st)) = user (transcriptionRef st) +:+ t
        /\ ai (transcription (appendUser t st)) = ai (transcription st)
        /\ ai (transcriptionRef (appendUser t st)) = ai (transcriptionRef st)).
Proof.
  cbv zeta. destruct (displayInv_run ops) as [Hai Hu].
  split; [ exact Hai | ]. split; [ exact Hu | ].
  split; [ apply appendUser_only_run | ].
  split; intros t; repeat split; reflexivity.
Qed.

(** ** Start times of successive chunks *)

Section Gapless.
Variable dec : string -> AudioBuffer.

Lemma scheduleAll_nodes chunks st :
  nodes (scheduleAll dec chunks st) = nodes st ++ planned dec (nextStartTime st) chunks.
Proof.
  revert st. induction chunks as [ | c rest IH ]; intros st; simpl.
  - now rewrite app_nil_r.
  - unfold scheduleAll in *. simpl. rewrite IH.
    rewrite scheduleChunk_nodes, scheduleChunk_cursor, <- app_assoc. reflexivity.
Qed.

Lemma created_planned chunks st :
  created st (scheduleAll dec chunks st) = planned dec (nextStartTime st) chunks.
Proof. unfold created. rewrite scheduleAll_nodes. apply drop_app_length. Qed.

Lemma planned_length cursor chunks : length (planned dec cursor chunks) = length chunks.
Proof.
  revert cursor. induction chunks as [ | c rest IH ]; intros cursor; simpl;
    [ reflexivity | now rewrite IH ].
Qed.

Lemma planned_lookup cursor chunks i c n :
  chunks !! i = Some c -> planned dec cursor chunks !! i = Some n ->
  buffer n = dec c.2 /\ (c.1 <= startTime n)%Q.
Proof.
  revert cursor i. induction chunks as [ | c0 rest IH ]; intros cursor i Hc Hn.
  - discriminate Hc.
  - destruct i as [ | i ]; simpl in Hc, Hn.
    + injection Hc as ->. injection Hn as <-. simpl.
      split; [ reflexivity | apply Math_max_ge_r ].
    + eapply IH; eassumption.
Qed.

Lemma planned_next cursor chunks i p c n :
  planned dec cursor chunks !! i = Some p ->
  chunks !! S i = Some c ->
  planned dec cursor chunks !! S i = Some n ->
  startTime n = Math_max (startTime p + duration (buffer p))%Q c.1.
Proof.
  revert cursor i. induction chunks as [ | c0 rest IH ]; intros cursor i Hp Hc Hn.
  - discriminate Hc.
  - destruct i as [ | i ]; simpl in Hp, Hc, Hn.
    + injection Hp as <-. simpl.
      destruct rest as [ | c1 rest ]; [ discriminate Hc | ].
      simpl in Hc, Hn. injection Hc as ->. injection Hn as <-. reflexivity.
    + eapply IH; eassumption.
Qed.

End Gapless.


(** The serial case: chunks scheduled one after the other, each decoded and
    started before the next is scheduled, get one source node each, in call
    order; the first starts at the cursor clamped to the clock, each later
    one at the end of its predecessor clamped to the clock as read when it is
    scheduled. *)
Lemma serial_chunks_start_times dec (chunks : list (Q * string)) (st0 : App) :
  let new := created st0 (scheduleAll dec chunks st0) in
  length new = length chunks
  /\ (forall i c n, chunks !! i = Some c -> new !! i = Some n ->
        buffer n = dec c.2 /\ (c.1 <= startTime n)%Q)
  /\ (forall c n, chunks !! 0 = Some c -> new !! 0 = Some n ->
        startTime n = Math_max (nextStartTime st0) c.1)
  /\ (forall i p c n,
        new !! i = Some p -> chunks !! S i = Some c -> new !! S i = Some n ->
        startTime n = Math_max (startTime p + duration (buffer p))%Q c.1
        /\ (startTime p + duration (buffer p) <= startTime n)%Q
        /\ ((c.1 <= startTime p + duration (buffer p))%Q ->
            startTime n = (startTime p + duration (buffer p))%Q)).
Proof.
  cbv zeta. rewrite created_planned.
  split; [ apply planned_length | ].
  split; [ intros i c n; apply planned_lookup | ].
  split.
  - intros c n Hc Hn. destruct chunks as [ | c0 rest ]; [ discriminate Hc | ].
    simpl in Hc, Hn. injection Hc as ->. injection Hn as <-. reflexivity.
  - intros i p c n Hp Hc Hn.
    pose proof (planned_next dec _ _ _ _ _ _ Hp Hc Hn) as E.
    split; [ exact E | ]. split.
    + rewrite E. apply Math_max_ge_l.
    + intros Hle. rewrite E. now apply Math_max_keep.
Qed.

(** Three chunks of 1/12000 s: the second arrives in time and starts where
    the first ends, the third arrives late and starts at the clock. *)
Example serial_chunks_start_times_example :
  startTime <$> created initialApp
    (scheduleAll exampleDecoder
       [ (1%Q, "abcd"); (1%Q, "abcd"); (5%Q, "abcd") ] initialApp)
  = [ 1%Q; (1 + (4 # 48000))%Q; 5%Q ].
Proof. reflexivity. Qed.

(** The serial operation is a run of the component: the message is handled
    and its decode completes before anything else happens. *)
Lemma scheduleChunk_is_a_run dec (now : Q) (data : string) (st : App) :
  truthy data = true ->
  app (run dec [ EvMessage now (audioMessage data); EvDecoded now 0 ]
         {| app := st; pending := [] |})
  = scheduleChunk dec now data st.
Proof.
  intros H. unfold run. simpl. unfold onmessage_begin, onmessage_from. simpl.
  rewrite H. simpl. unfold onmessage_resume, onmessage_from. simpl. reflexivity.
Qed.

(** A handler changes neither when a node was started nor what it plays. *)
Lemma afterParts_started msg st i n :
  nodes st !! i = Some n ->
  exists n', nodes (afterParts msg st) !! i = Some n'
             /\ startTime n' = startTime n /\ buffer n' = buffer n.
Proof.
  intros H. unfold afterParts.
  destruct (inputTranscription msg), (outputTranscription msg),
    (turnComplete msg), (interrupted msg); simpl;
    first [ now apply stopSources_started | now exists n ].
Qed.

Lemma onmessage_from_started now ps msg st i n :
  nodes st !! i = Some n ->
  exists n', nodes (onmessage_from now ps msg st).1 !! i = Some n'
             /\ startTime n' = startTime n /\ buffer n' = buffer n.
Proof.
  intros H. unfold onmessage_from.
  destruct (nextAudioPart ps) as [[data rest] | ]; simpl.
  - now exists n.
  - now apply afterParts_started.
Qed.

(** ** Runs without interruption or stop *)


Lemma clockReadings_cons ev evs :
  clockReadings (ev :: evs) = clockReading ev ++ clockReadings evs.
Proof. reflexivity. Qed.

Section QuietRuns.
Variable dec : string -> AudioBuffer.
Variable P : list Q -> App -> Prop.

Hypothesis P_more : forall T T' st, P T st -> P (T ++ T') st.
Hypothesis P_setIsActive : forall T b st, P T st -> P T (setIsActive b st).
Hypothesis P_setIsSyncing : forall T b st, P T st -> P T (setIsSyncing b st).
Hypothesis P_set_liveSession : forall T o st, P T st -> P T (set_liveSession o st).
Hypothesis P_onended : forall T i st, P T st -> P T (onended i st).
Hypothesis P_clampCursor : forall T t st, P T st -> P (T ++ [t]) (clampCursor t st).
Hypothesis P_startSource :
  forall T data st, P T st -> P T (startSource (dec data) st).
Hypothesis P_appendUser : forall T t st, P T st -> P T (appendUser t st).
Hypothesis P_appendModel : forall T t st, P T st -> P T (appendModel t st).
Hypothesis P_commitTurn : forall T st, P T st -> P T (commitTurn st).

Lemma quiet_afterParts T msg st :
  interrupted msg = false -> P T st -> P T (afterParts msg st).
Proof.
  intros Hq H. unfold afterParts. rewrite Hq.
  destruct (inputTranscription msg), (outputTranscription msg), (turnComplete msg);
    auto.
Qed.

Lemma quiet_onmessage_from T now ps msg st :
  interrupted msg = false -> P T st ->
  P (T ++ [now]) (onmessage_from now ps msg st).1
  /\ quietPending (option_list (onmessage_from now ps msg st).2).
Proof.
  intros Hq H. unfold onmessage_from.
  destruct (nextAudioPart ps) as [[data rest] | ]; simpl.
  - split; [ now apply P_clampCursor | ].
    constructor; [ exact Hq | constructor ].
  - split; [ now apply P_more, quiet_afterParts | constructor ].
Qed.

Lemma quiet_step T sys ev :
  quiet ev = true -> quietPending (pending sys) -> P T (app sys) ->
  P (T ++ clockReading ev) (app (step dec sys ev))
  /\ quietPending (pending (step dec sys ev)).
Proof.
  intros Hq Hp H.
  destruct ev as [ | session | | | now msg | now i | | | source ]; simpl in *;
    try discriminate Hq.
  - split; [ now apply P_more, P_set_liveSession | exact Hp ].
  - split; [ now apply P_more, P_setIsSyncing | exact Hp ].
  - split; [ unfold onopen; now apply P_more, P_setIsSyncing, P_setIsActive | exact Hp ].
  - apply negb_true_iff in Hq.
    destruct (quiet_onmessage_from T now (parts msg) msg (app sys) Hq H) as [H1 H2].
    split; [ exact H1 | ]. apply Forall_app. split; assumption.
  - destruct (pending sys !! i) as [k | ] eqn:Hk; [ | split; [ now apply P_more | exact Hp ] ].
    assert (Hkq : interrupted (message k) = false).
    { unfold quietPending in Hp. rewrite Forall_lookup in Hp. exact (Hp i k Hk). }
    destruct (quiet_onmessage_from T now (remaining k) (message k)
                (startSource (dec (awaiting k)) (app sys)) Hkq
                (P_startSource T _ _ H)) as [H1 H2].
    simpl. split; [ exact H1 | ]. apply Forall_app. split; [ | exact H2 ].
    now apply Forall_delete.
  - split; [ unfold onclose; now apply P_more, P_setIsSyncing, P_setIsActive | exact Hp ].
  - split; [ now apply P_more, P_onended | exact Hp ].
Qed.

Lemma quiet_run evs :
  forall T sys,
    forallb quiet evs = true -> quietPending (pending sys) -> P T (app sys) ->
    P (T ++ clockReadings evs) (app (run dec evs sys))
    /\ quietPending (pending (run dec evs sys)).
Proof.
  induction evs as [ | ev evs IH ]; intros T sys Hq Hp H.
  - split; [ now apply P_more | exact Hp ].
  - simpl in Hq. apply andb_true_iff in Hq as [Hev Hevs].
    destruct (quiet_step T sys ev Hev Hp H) as [H1 H2].
    rewrite clockReadings_cons, app_assoc.
    exact (IH _ (step dec sys ev) Hevs H2 H1).
Qed.

End QuietRuns.








(** ** The cursor and the clock *)

Lemma runOps_snoc dec trace e st :
  runOps dec (trace ++ [e]) st = applyOp dec (runOps dec trace st) e.
Proof. unfold runOps. now rewrite foldl_app. Qed.

Lemma exampleDecoder_nonneg data : (0 <= duration (exampleDecoder data))%Q.
Proof. unfold Qle. simpl. lia. Qed.

Lemma cursor_nonneg dec trace :
  (forall data, (0 <= duration (dec data))%Q) ->
  (0 <= nextStartTime (runOps dec trace initialApp))%Q.
Proof.
  intros Hd. induction trace as [ | [t op] trace IH ] using rev_ind.
  - apply Qle_refl.
  - rewrite runOps_snoc. destruct op as [data | | ]; unfold applyOp; simpl.
    + pose proof (Math_max_ge_l (nextStartTime (runOps dec trace initialApp)) t).
      pose proof (Hd data). lra.
    + apply Qle_refl.
    + apply Qle_refl.
Qed.

(** C7, as stated, fails: a chunk is scheduled with the clock at [1], the
    interruption is handled with the clock at [2], and the cursor is then
    [0], below the clock. *)
Lemma cursor_falls_behind_clock :
  ~ (forall dec (trace : list (Q * SchedulerOp)) (now : Q) op,
       (now <= nextStartTime (runOps dec (trace ++ [ (now, op) ]) initialApp))%Q).
Proof.
  intros H.
  specialize (H exampleDecoder [ (1%Q, OpSchedule "abcd") ] 2%Q OpInterrupt).
  vm_compute in H. apply H. reflexivity.
Qed.

(** Without interruption or stop the cursor never moves back. *)
Lemma cursor_kept_in_quiet_runs dec (evs : list Event) (sys : System) (c : Q) :
  (forall d, (0 <= duration (dec d))%Q) ->
  forallb quiet evs = true -> quietPending (pending sys) ->
  (c <= nextStartTime (app sys))%Q ->
  (c <= nextStartTime (app (run dec evs sys)))%Q.
Proof.
  intros Hd Hq Hp H.
  refine (proj1 (quiet_run dec (fun _ st => (c <= nextStartTime st)%Q)
            _ _ _ _ _ _ _ _ _ _ evs [] sys Hq Hp H));
    try (intros ? ? ? H0; exact H0); try (intros ? ? H0; exact H0).
  - intros T t st H0. simpl.
    eapply Qle_trans; [ exact H0 | apply Math_max_ge_l ].
  - intros T data st H0. simpl. pose proof (Hd data). lra.
Qed.

(** C7, amended: right after the clamp that opens a schedule operation the
    cursor is at or above the reading of the clock, and, buffers having a
    non-negative duration, it stays there, never moving back, through the
    decode and the start of the chunk and for as long as no interruption and
    no stop is handled.  An interruption or a stop sets the cursor to [0]
    whatever the clock reads, also while a decode is in flight, so the cursor
    is not at or above the clock in every reachable state. *)
Theorem cursor_reaches_clock_at_the_clamp dec (evs : list Event) (sys : System)
    (now : Q) msg :
  (forall d, (0 <= duration (dec d))%Q) ->
  nextAudioPart (parts msg) <> None ->
  forallb quiet (EvMessage now msg :: evs) = true ->
  quietPending (pending sys) ->
  let begun := step dec sys (EvMessage now msg) in
  let later := run dec evs begun in
  (now <= nextStartTime (app begun))%Q
  /\ (nextStartTime (app begun) <= nextStartTime (app later))%Q
  /\ (now <= nextStartTime (app later))%Q
  /\ (forall st, nextStartTime (interrupt st) = 0%Q
                 /\ nextStartTime (stopSession st) = 0%Q).
Proof.
  intros Hd Hpart Hq Hp begun later.
  simpl in Hq. apply andb_true_iff in Hq as [Hmsg Hevs].
  assert (Hbegun : (now <= nextStartTime (app begun))%Q).
  { subst begun. simpl. unfold onmessage_begin, onmessage_from.
    destruct (nextAudioPart (parts msg)) as [[data rest] | ]; [ | contradiction ].
    simpl. apply Math_max_ge_r. }
  assert (Hpb : quietPending (pending begun)).
  { subst begun. simpl. apply Forall_app. split; [ exact Hp | ].
    unfold onmessage_begin, onmessage_from.
    destruct (nextAudioPart (parts msg)) as [[data rest] | ]; simpl;
      [ | constructor ].
    constructor; [ now apply negb_true_iff | constructor ]. }
  assert (Hmono : (nextStartTime (app begun) <= nextStartTime (app later))%Q).
  { subst later.
    exact (cursor_kept_in_quiet_runs dec evs begun _ Hd Hevs Hpb (Qle_refl _)). }
  split; [ exact Hbegun | ]. split; [ exact Hmono | ].
  split; [ eapply Qle_trans; eassumption | ].
  intros st. split; [ reflexivity | ].
  unfold stopSession. destruct (liveSession st); reflexivity.
Qed.

Lemma cursor_reaches_clock_at_the_clamp_witness :
  let begun := step exampleDecoder initialSystem (EvMessage 1 (audioMessage "abcd")) in
  let later := run exampleDecoder
                 [ EvMessage 2 (audioMessage "ab"); EvDecoded 3 1; EvDecoded 4 0;
                   EvEnded 0 ] begun in
  (1 <= nextStartTime (app begun))%Q /\ (1 <= nextStartTime (app later))%Q.
Proof.
  intros begun later.
  assert (Hpart : nextAudioPart (parts (audioMessage "abcd")) <> None)
    by discriminate.
  destruct (cursor_reaches_clock_at_the_clamp exampleDecoder
              [ EvMessage 2 (audioMessage "ab"); EvDecoded 3 1; EvDecoded 4 0;
                EvEnded 0 ]
              initialSystem 1 (audioMessage "abcd")
              exampleDecoder_nonneg Hpart eq_refl (Forall_nil_2 _))
    as (H1 & _ & H3 & _).
  split; [ exact H1 | exact H3 ].
Defined.

(** ** Stop and restart *)

(** C8: [stopSession] writes every field but the history, which it copies:
    the accumulators (ref and displayed state) become empty, the cursor [0];
    opening a session again after the stop changes the two flags and the
    session handle only, so the history is still the one before the stop,
    the accumulators are still empty and the cursor is still [0].  A click
    while the session is active is such a stop. *)
Theorem stop_then_restart_keeps_history (st : App) (session : nat) :
  let stopped := stopSession st in
  let restarted := startSession_connected session (onopen (startSession stopped)) in
  stopped =
    {| isActive := false; isSyncing := false;
       transcription := {| user := ""; ai := "" |};
       history := history st;
       liveSession := None; nextStartTime := 0; sources := ∅;
       transcriptionRef := {| user := ""; ai := "" |};
       nodes := stopSources (sources st) (nodes st);
       closedSessions := closedSessions st ++ option_list (liveSession st) |}
  /\ restarted =
       set_liveSession (Some session) (setIsActive true stopped)
  /\ history restarted = history st
  /\ transcription restarted = {| user := ""; ai := "" |}
  /\ transcriptionRef restarted = {| user := ""; ai := "" |}
  /\ nextStartTime restarted = 0%Q
  /\ isActive restarted = true
  /\ startSession (setIsActive true st) = stopSession st.
Proof.
  cbv zeta.
  assert (E : stopSession st =
    {| isActive := false; isSyncing := false;
       transcription := {| user := ""; ai := "" |};
       history := history st;
       liveSession := None; nextStartTime := 0; sources := ∅;
       transcriptionRef := {| user := ""; ai := "" |};
       nodes := stopSources (sources st) (nodes st);
       closedSessions := closedSessions st ++ option_list (liveSession st) |}).
  { unfold stopSession. destruct st as [a s t h [old | ] c src r ns cl]; simpl;
      [ reflexivity | now rewrite app_nil_r ]. }
  assert (T : startSession (setIsActive true st) = stopSession st).
  { destruct st as [a s t h [old | ] c src r ns cl]; reflexivity. }
  split; [ exact E | ]. rewrite T, E.
  repeat split; reflexivity.
Qed.

(** ** A decode that completes after an interruption *)

(** C10, as stated, fails: an audio message is received with the clock at
    [1] and its decode begins; the interruption is handled with the clock at
    [2]; the decode completes with the clock at [3], and the handler goes on
    as if nothing had happened: a node is created, it is added to the
    emptied [sources], and the cursor advances. *)
Lemma stale_decode_is_not_discarded :
  ~ (forall dec (t1 t2 t3 : Q) msg st st1 k,
       onmessage_begin t1 msg st = (st1, Some k) ->
       let st2 := onmessage dec t2 interruptedMessage st1 in
       let st3 := (onmessage_resume dec t3 k st2).1 in
       nodes st3 = nodes st2
       /\ sources st3 = sources st2
       /\ nextStartTime st3 = nextStartTime st2).
Proof.
  intros H.
  destruct (H exampleDecoder 1%Q 2%Q 3%Q (audioMessage "abcd") initialApp _ _ eq_refl)
    as (E & _ & _).
  vm_compute in E. discriminate E.
Qed.

(** C10, amended: no continuation is guarded.  When the interruption is
    handled while a decode is in flight, the decode's completion creates a
    source node for the decoded buffer all the same and starts it at the
    cursor the interruption left, [0], which for the output context means at
    once; that node is the only member of [sources] and the cursor is the
    buffer's duration when the handler goes on from there. *)
Theorem stale_decode_still_plays dec (t1 t2 t3 : Q) msg st st1 k :
  onmessage_begin t1 msg st = (st1, Some k) ->
  let st2 := onmessage dec t2 interruptedMessage st1 in
  let started := startSource (dec (awaiting k)) st2 in
  let st3 := (onmessage_resume dec t3 k st2).1 in
  (nextAudioPart (parts msg) = Some (awaiting k, remaining k)
   /\ message k = msg /\ st1 = clampCursor t1 st)
  /\ sources st2 = ∅ /\ nextStartTime st2 = 0%Q
  /\ st3 = (onmessage_from t3 (remaining k) (message k) started).1
  /\ sources started = {[ length (nodes st2) ]}
  /\ nextStartTime started = (0 + duration (dec (awaiting k)))%Q
  /\ nodes started = nodes st2 ++ [ {| buffer := dec (awaiting k);
                                      startTime := 0; stopped := false |} ]
  /\ exists n, nodes st3 !! length (nodes st2) = Some n
               /\ startTime n = 0%Q /\ buffer n = dec (awaiting k).
Proof.
  intros Hbegin st2 started st3.
  split.
  { unfold onmessage_begin, onmessage_from in Hbegin.
    destruct (nextAudioPart (parts msg)) as [[data rest] | ]; [ | discriminate Hbegin ].
    injection Hbegin as <- <-. repeat split; reflexivity. }
  assert (Hs : sources st2 = ∅) by reflexivity.
  assert (Hc : nextStartTime st2 = 0%Q) by reflexivity.
  split; [ exact Hs | ]. split; [ exact Hc | ]. split; [ reflexivity | ].
  assert (Hn : nodes started = nodes st2 ++ [ {| buffer := dec (awaiting k);
                                                startTime := 0; stopped := false |} ])
    by reflexivity.
  split; [ | split; [ reflexivity | split; [ exact Hn | ] ] ].
  - subst started. unfold startSource. simpl. apply union_empty_r_L.
  - destruct (onmessage_from_started t3 (remaining k) (message k) started
                (length (nodes st2))
                {| buffer := dec (awaiting k); startTime := 0; stopped := false |})
      as (n' & Hl & Hst & Hb).
    + rewrite Hn. apply list_lookup_middle. reflexivity.
    + exists n'. split; [ exact Hl | ]. split; assumption.
Qed.

Lemma stale_decode_still_plays_witness :
  let st1 := (onmessage_begin 1 (audioMessage "abcd") initialApp).1 in
  let k := {| awaiting := "abcd"; remaining := []; message := audioMessage "abcd" |} in
  let st2 := onmessage exampleDecoder 2 interruptedMessage st1 in
  let st3 := (onmessage_resume exampleDecoder 3 k st2).1 in
  sources st2 = ∅ /\ nextStartTime st2 = 0%Q
  /\ exists n, nodes st3 !! 0 = Some n /\ startTime n = 0%Q.
Proof.
  intros st1 k st2 st3.
  destruct (stale_decode_still_plays exampleDecoder 1 2 3 (audioMessage "abcd")
              initialApp st1 k eq_refl)
    as (_ & Hs & Hc & _ & _ & _ & _ & n & Hn & Ht & _).
  split; [ exact Hs | ]. split; [ exact Hc | ].
  exists n. split; [ exact Hn | exact Ht ].
Defined.

(** ** The coroutine and the uninterrupted handler agree *)

Lemma resumeAll_done dec fuel now st :
  resumeAll dec fuel now (st, None) = (st, None).
Proof. destruct fuel; reflexivity. Qed.

(** Resumed as often as the message has parts, with nothing else happening
    in between, the suspended handler ends in the state of [onmessage]. *)
Lemma resumeAll_onmessage_from dec now msg ps :
  forall fuel st, length ps <= fuel ->
  resumeAll dec fuel now (onmessage_from now ps msg st) =
  (afterParts msg (scheduleParts dec now ps st), None).
Proof.
  induction ps as [ | p rest IH ]; intros fuel st Hfuel.
  - apply resumeAll_done.
  - simpl in Hfuel. unfold onmessage_from. simpl.
    destruct (inlineData p) as [data | ] eqn:Hp.
    + destruct (truthy data) eqn:Ht.
      * destruct fuel as [ | fuel ]; [ lia | ]. simpl.
        unfold onmessage_resume. simpl. apply IH. lia.
      * apply (IH fuel st). lia.
    + apply (IH fuel st). lia.
Qed.

(** X17: the suspended handler and the uninterrupted one agree.  Started
    on a message and resumed as often as the message has parts, every decode
    completing before any other callback runs and the clock standing still,
    the handler has no continuation left and has reached the state of
    [onmessage]: that many resumptions always suffice. *)
Lemma resumeAll_onmessage dec now msg st :
  resumeAll dec (length (parts msg)) now (onmessage_begin now msg st) =
  (onmessage dec now msg st, None).
Proof. unfold onmessage_begin, onmessage. now apply resumeAll_onmessage_from. Qed.

(** * Further properties of the code *)

(** ** The capture callback *)

Section FramerExtras.
Import Framer.
Local Open Scope Q_scope.

Lemma ToInt16_range (x : Q) : (-32768 <= ToInt16 x <= 32767)%Z.
Proof.
  unfold ToInt16. cbv zeta.
  pose proof (Z.mod_pos_bound (truncate x) 65536 eq_refl) as Hm.
  destruct (Z.leb_spec 32768 (truncate x mod 65536)); lia.
Qed.

Lemma ToInt16_congruent (x : Q) :
  (ToInt16 x mod 65536 = truncate x mod 65536)%Z.
Proof.
  unfold ToInt16. cbv zeta.
  destruct (Z.leb_spec 32768 (truncate x mod 65536)).
  - replace (truncate x mod 65536 - 65536)%Z
      with (truncate x mod 65536 + (-1) * 65536)%Z by lia.
    rewrite Z.mod_add by lia. apply Z.mod_mod. lia.
  - apply Z.mod_mod. lia.
Qed.

(** X1: the capture loop writes every slot of the [Int16Array] it
    allocates: as many 16-bit values come out as samples went in, the value
    at each index is the conversion of the sample at that index, and whatever
    the samples are, in range or not, every value is a signed 16-bit
    integer congruent modulo [2^16] to the truncated product. *)
Theorem fill_int16_every_slot (inputData : list Q) :
  length (fill_int16 inputData) = length inputData
  /\ (forall i : nat, fill_int16 inputData !! i = pcm16 <$> inputData !! i)
  /\ (forall (i : nat) (x : Q) (v : Z),
        inputData !! i = Some x -> fill_int16 inputData !! i = Some v ->
        (-32768 <= v <= 32767)%Z
        /\ (v mod 65536 = truncate (x * 32768) mod 65536)%Z).
Proof.
  rewrite fill_int16_map. split; [ apply length_fmap | ].
  split; [ intros i; apply list_lookup_fmap | ].
  intros i x v Hx Hv. rewrite list_lookup_fmap, Hx in Hv.
  injection Hv as <-. unfold pcm16.
  split; [ apply ToInt16_range | apply ToInt16_congruent ].
Qed.

(** X2: there is no clamping.  A sample in [[1, 2)], full scale included,
    is stored as its truncated product less [65536], a negative value: the
    loudest positive input comes out at the negative end of the range. *)
Theorem pcm16_overdrive_wraps (sample : Q) :
  1 <= sample -> sample < 2 ->
  pcm16 sample = (truncate (sample * 32768) - 65536)%Z
  /\ (-32768 <= pcm16 sample < 0)%Z.
Proof.
  intros Hlo Hhi.
  assert (Hpos : 0 <= sample * 32768) by lra.
  assert (Ht : (32768 <= truncate (sample * 32768) < 65536)%Z).
  { unfold truncate. apply Qle_bool_iff in Hpos. rewrite Hpos. split.
    - apply (Z.le_trans _ (Qfloor 32768)); [ vm_compute; discriminate | ].
      apply Qfloor_resp_le. lra.
    - rewrite Zlt_Qlt. eapply Qle_lt_trans; [ apply Qfloor_le | ].
      change (inject_Z 65536) with 65536. lra. }
  assert (E : pcm16 sample = (truncate (sample * 32768) - 65536)%Z).
  { unfold pcm16, ToInt16. cbv zeta. rewrite Z.mod_small by lia.
    destruct (Z.leb_spec 32768 (truncate (sample * 32768))); [ reflexivity | lia ]. }
  split; [ exact E | ]. rewrite E. lia.
Qed.

Lemma pcm16_overdrive_wraps_witness : pcm16 1 = (-32768)%Z.
Proof.
  assert (Hlo : 1 <= 1) by apply Qle_refl.
  assert (Hhi : 1 < 2) by reflexivity.
  destruct (pcm16_overdrive_wraps 1 Hlo Hhi) as [E _].
  rewrite E. reflexivity.
Defined.

End FramerExtras.

(** ** The audio parts of a message *)

Section PartsExtras.
Variable dec : string -> AudioBuffer.

Lemma scheduleParts_scheduleAll now ps st :
  scheduleParts dec now ps st =
  scheduleAll dec ((fun d => (now, d)) <$> audioData ps) st.
Proof.
  revert st. induction ps as [ | p rest IH ]; intros st; [ reflexivity | ].
  unfold audioData. simpl. destruct (inlineData p) as [data | ]; [ | apply IH ].
  destruct (truthy data); [ | apply IH ]. simpl. apply IH.
Qed.

Lemma planned_buffers cursor chunks :
  buffer <$> planned dec cursor chunks = (fun c => dec c.2) <$> chunks.
Proof.
  revert cursor. induction chunks as [ | c rest IH ]; intros cursor; simpl;
    [ reflexivity | now rewrite IH ].
Qed.

Lemma planned_fresh cursor chunks :
  Forall (fun n => stopped n = false) (planned dec cursor chunks).
Proof.
  revert cursor. induction chunks as [ | c rest IH ]; intros cursor; simpl;
    constructor; [ reflexivity | apply IH ].
Qed.

Lemma scheduleAll_sources chunks st :
  sources (scheduleAll dec chunks st) =
  sources st ∪ list_to_set (seq (length (nodes st)) (length chunks)).
Proof.
  revert st. induction chunks as [ | c rest IH ]; intros st.
  - simpl. now rewrite union_empty_r_L.
  - change (scheduleAll dec (c :: rest) st)
      with (scheduleAll dec rest (scheduleChunk dec c.1 c.2 st)).
    rewrite IH, scheduleChunk_sources, scheduleChunk_nodes, length_app.
    simpl. replace (length (nodes st) + 1) with (S (length (nodes st))) by lia.
    rewrite (comm_L (∪) {[ length (nodes st) ]} (sources st)).
    now rewrite (assoc_L (∪)).
Qed.

End PartsExtras.

Lemma scheduleParts_shape dec (now : Q) (ps : list Part) (st : App) :
  let st' := scheduleParts dec now ps st in
  nodes st' = nodes st ++ created st st'
  /\ buffer <$> created st st' = dec <$> audioData ps
  /\ Forall (fun n => stopped n = false) (created st st')
  /\ sources st' =
       sources st ∪ list_to_set (seq (length (nodes st)) (length (audioData ps))).
Proof.
  cbv zeta. rewrite scheduleParts_scheduleAll, created_planned.
  split; [ apply scheduleAll_nodes | ]. split.
  - rewrite planned_buffers, <- list_fmap_compose. reflexivity.
  - split; [ apply planned_fresh | ].
    rewrite scheduleAll_sources, length_fmap. reflexivity.
Qed.

(** X3: the loop over the parts of a message creates one source node for
    each part that carries a non-empty payload and none for the others; the
    nodes are appended to the output context in the order of the parts, each
    playing the buffer decoded from its part, none of them stopped, and their
    indices are what the loop adds to [sources]. *)
Theorem message_parts_one_node_each dec (now : Q) (ps : list Part) (st : App) :
  let st' := scheduleParts dec now ps st in
  nodes st' = nodes st ++ created st st'
  /\ buffer <$> created st st' = dec <$> audioData ps
  /\ length (created st st') = length (audioData ps)
  /\ Forall (fun n => stopped n = false) (created st st')
  /\ sources st' =
       sources st ∪ list_to_set (seq (length (nodes st)) (length (audioData ps))).
Proof.
  destruct (scheduleParts_shape dec now ps st) as (Hn & Hb & Hf & Hs).
  cbv zeta. split; [ exact Hn | ]. split; [ exact Hb | ]. split.
  - rewrite <- (length_fmap buffer), Hb. apply length_fmap.
  - split; [ exact Hf | exact Hs ].
Qed.

(** X4: the parts of one message, scheduled at one reading of the clock,
    play back to back: buffers having a non-negative duration, each node
    after the first starts exactly where the node before it ends. *)
Theorem parts_of_one_message_are_gapless dec (now : Q) (ps : list Part) (st : App)
    (i : nat) (p n : SourceNode) :
  (forall d, (0 <= duration (dec d))%Q) ->
  created st (scheduleParts dec now ps st) !! i = Some p ->
  created st (scheduleParts dec now ps st) !! S i = Some n ->
  startTime n = (startTime p + duration (buffer p))%Q.
Proof.
  intros Hd. rewrite scheduleParts_scheduleAll, created_planned. intros Hp Hn.
  set (chunks := (fun d => (now, d)) <$> audioData ps) in *.
  assert (Hi : i < length chunks).
  { rewrite <- (planned_length dec (nextStartTime st)). eapply lookup_lt_Some, Hp. }
  assert (HSi : S i < length chunks).
  { rewrite <- (planned_length dec (nextStartTime st)). eapply lookup_lt_Some, Hn. }
  destruct (lookup_lt_is_Some_2 chunks i Hi) as [c Hc].
  destruct (lookup_lt_is_Some_2 chunks (S i) HSi) as [c' Hc'].
  assert (Hnow : forall j x, chunks !! j = Some x -> x.1 = now).
  { intros j x Hx. subst chunks. rewrite list_lookup_fmap in Hx.
    destruct (audioData ps !! j); [ | discriminate Hx ].
    injection Hx as <-. reflexivity. }
  rewrite (planned_next dec _ _ _ _ _ _ Hp Hc' Hn), (Hnow _ _ Hc').
  apply Math_max_keep.
  destruct (planned_lookup dec _ _ _ _ _ Hc Hp) as [Hb Hs].
  rewrite (Hnow _ _ Hc) in Hs. rewrite Hb. pose proof (Hd c.2). lra.
Qed.

Lemma parts_of_one_message_are_gapless_witness :
  let ps := [ {| inlineData := Some "abcd" |}; {| inlineData := None |};
              {| inlineData := Some "ab" |} ] in
  let p := {| buffer := exampleDecoder "abcd"; startTime := 5; stopped := false |} in
  let n := {| buffer := exampleDecoder "ab";
              startTime := 5 + (4 # 48000); stopped := false |} in
  created initialApp (scheduleParts exampleDecoder 5 ps initialApp) !! 0 = Some p
  /\ created initialApp (scheduleParts exampleDecoder 5 ps initialApp) !! 1 = Some n
  /\ startTime n = (startTime p + duration (buffer p))%Q.
Proof.
  intros ps p n. split; [ reflexivity | ]. split; [ reflexivity | ].
  exact (parts_of_one_message_are_gapless exampleDecoder 5 ps initialApp 0 p n
           exampleDecoder_nonneg eq_refl eq_refl).
Defined.

(** ** Interruption, stop and the ['ended'] listener *)

Lemma stopSources_empty ns : stopSources ∅ ns = ns.
Proof.
  apply list_eq. intros i. rewrite stopSources_lookup.
  destruct (ns !! i) as [n | ]; simpl; [ | reflexivity ].
  destruct (decide (i ∈ (∅ : gset nat))) as [Hi | _]; [ | reflexivity ].
  exfalso. exact (not_elem_of_empty i Hi).
Qed.

Lemma afterParts_interrupted_nodes msg st :
  interrupted msg = true ->
  nodes (afterParts msg st) = stopSources (sources st) (nodes st).
Proof.
  intros H. unfold afterParts. rewrite H.
  destruct (inputTranscription msg), (outputTranscription msg), (turnComplete msg);
    reflexivity.
Qed.

(** X5: when a message carries the interruption signal, every node that is
    in [sources] once its audio parts are scheduled is stopped: the nodes
    that were playing before and the nodes the message itself has just
    started.  Nodes that had left [sources] are left alone, and no node is
    created, removed or re-timed by the interruption. *)
Theorem interruption_stops_every_active dec (now : Q) msg (st : App) :
  interrupted msg = true ->
  let scheduled := scheduleParts dec now (parts msg) st in
  let st' := onmessage dec now msg st in
  length (nodes st') = length (nodes scheduled)
  /\ forall i n, nodes scheduled !! i = Some n ->
       nodes st' !! i =
       Some (if decide (i ∈ sources st \/ length (nodes st) <= i) then stop n else n).
Proof.
  intros H scheduled st'. subst st'. unfold onmessage. fold scheduled.
  rewrite (afterParts_interrupted_nodes msg scheduled H).
  split; [ apply stopSources_length | ].
  intros i n Hn. rewrite stopSources_lookup, Hn. simpl. f_equal.
  destruct (scheduleParts_shape dec now (parts msg) st)
    as (Hnodes & Hbuf & _ & Hsrc).
  fold scheduled in Hnodes, Hbuf, Hsrc.
  assert (Hlen : length (nodes scheduled) =
                 length (nodes st) + length (audioData (parts msg))).
  { rewrite Hnodes, length_app. f_equal.
    rewrite <- (length_fmap buffer), Hbuf. apply length_fmap. }
  pose proof (lookup_lt_Some _ _ _ Hn) as Hi.
  assert (Hiff : i ∈ sources scheduled <->
                 i ∈ sources st \/ length (nodes st) <= i).
  { rewrite Hsrc, elem_of_union, elem_of_list_to_set, elem_of_seq. split.
    - intros [Hs | [Hge _]]; [ now left | now right ].
    - intros [Hs | Hge]; [ now left | right; lia ]. }
  destruct (decide (i ∈ sources scheduled)) as [Hin | Hout],
    (decide (i ∈ sources st \/ length (nodes st) <= i)) as [Hd | Hd];
    try reflexivity.
  - exfalso. apply Hd, Hiff, Hin.
  - exfalso. apply Hout, Hiff, Hd.
Qed.

Lemma interruption_stops_every_active_witness :
  let msg := {| parts := [ {| inlineData := Some "abcd" |} ];
                inputTranscription := None; outputTranscription := None;
                turnComplete := false; interrupted := true |} in
  stopped <$> nodes (onmessage exampleDecoder 2 msg
                       (scheduleChunk exampleDecoder 1 "ab" initialApp))
  = [ true; true ].
Proof.
  intros msg.
  set (st := scheduleChunk exampleDecoder 1 "ab" initialApp).
  destruct (interruption_stops_every_active exampleDecoder 2 msg st eq_refl)
    as [_ H].
  apply list_eq. intros [ | [ | i ] ].
  - rewrite list_lookup_fmap, (H 0 _ eq_refl). reflexivity.
  - rewrite list_lookup_fmap, (H 1 _ eq_refl). reflexivity.
  - reflexivity.
Defined.

(** X6: the two cancellation paths are idempotent and absorb each other: a
    second [stopSession] changes nothing (no session is closed twice, no
    node is stopped that was not in [sources]), a second interruption changes
    nothing, and an interruption handled after a stop changes nothing. *)
Theorem cancellation_is_idempotent (st : App) :
  stopSession (stopSession st) = stopSession st
  /\ interrupt (interrupt st) = interrupt st
  /\ interrupt (stopSession st) = stopSession st.
Proof.
  destruct st as [a s t h [session | ] c src r ns cl];
    unfold stopSession, interrupt; simpl; rewrite !stopSources_empty;
    repeat split; reflexivity.
Qed.

(** X7: the ['ended'] listener takes its own node out of [sources] and
    nothing else: afterwards the node is not a member, every other node is a
    member exactly when it was one before, and the nodes and the cursor are
    as they were.  Fired for a node that exists, it commutes with the
    scheduling of a later chunk; fired after an interruption or a stop has
    emptied [sources], or a second time, it does nothing. *)
Theorem ended_removes_only_its_node dec (now : Q) (data : string) (source : nat)
    (st : App) :
  source < length (nodes st) ->
(source ∉ sources (onended source st))
  /\ (forall other, other ≠ source ->
        (other ∈ sources (onended source st) <-> other ∈ sources st))
  /\ sources (onended source st) = sources st ∖ {[ source ]}
  /\ onended source (scheduleChunk dec now data st) =
       scheduleChunk dec now data (onended source st)
  /\ onended source (interrupt st) = interrupt st
  /\ onended source (stopSession st) = stopSession st
  /\ onended source (onended source st) = onended source st
  /\ nodes (onended source st) = nodes st
  /\ nextStartTime (onended source st) = nextStartTime st.
Proof.
  intros Hlt.
  assert (E : forall S : gset nat,
            ({[ length (nodes st) ]} ∪ S) ∖ {[ source ]} =
            {[ length (nodes st) ]} ∪ S ∖ {[ source ]}).
  { intros S. apply set_eq. intros x.
    rewrite elem_of_difference, !elem_of_union, elem_of_difference,
      !elem_of_singleton. split.
    - intros [[-> | Hx] Hne]; [ now left | now right ].
    - intros [-> | [Hx Hne]]; [ split; [ now left | lia ] | split; [ now right | exact Hne ] ]. }
  assert (E0 : (∅ : gset nat) ∖ {[ source ]} = ∅).
  { apply set_eq. intros x. rewrite elem_of_difference. split.
    - intros [Hx _]. exact Hx.
    - intros Hx. exfalso. exact (not_elem_of_empty x Hx). }
  assert (E2 : forall S : gset nat, S ∖ {[ source ]} ∖ {[ source ]} = S ∖ {[ source ]}).
  { intros S. apply set_eq. intros x. rewrite !elem_of_difference. tauto. }
  split.
  { unfold onended. simpl. rewrite elem_of_difference, elem_of_singleton. tauto. }
  split.
  { intros other Hne. unfold onended. simpl.
    rewrite elem_of_difference, elem_of_singleton. tauto. }
  split; [ reflexivity | ].
  split; [ | split; [ | split; [ | split; [ | split; reflexivity ] ] ] ].
  - unfold onended, scheduleChunk, startSource, clampCursor, set_sources. simpl.
    now rewrite E.
  - unfold onended, interrupt, set_sources. simpl. now rewrite E0.
  - unfold onended, stopSession, set_sources.
    destruct (liveSession st); simpl; now rewrite E0.
  - unfold onended, set_sources. simpl. now rewrite E2.
Qed.

Lemma ended_removes_only_its_node_witness :
  let st := scheduleChunk exampleDecoder 1 "abcd" initialApp in
  sources (onended 0 (scheduleChunk exampleDecoder 1 "ab" st)) = {[ 1 ]}.
Proof.
  intros st.
  assert (Hlt : 0 < length (nodes st)) by (simpl; lia).
  destruct (ended_removes_only_its_node exampleDecoder 1 "ab" 0 st Hlt)
    as (_ & _ & _ & E & _).
  rewrite E. reflexivity.
Defined.

(** X8: a start that fails gives the idle state back.  From a state that is
    neither active nor connecting, the click sets the connecting flag and the
    [catch] clears it again: no session, playback, transcript or history
    field is written on the way. *)
Theorem failed_start_returns_to_idle (st : App) :
  isActive st = false -> isSyncing st = false ->
  isSyncing (startSession st) = true
  /\ startSession_failed (startSession st) = st.
Proof.
  intros Ha Hs. unfold startSession. rewrite Ha.
  destruct st as [a s t h l c src r ns cl]. simpl in *. subst.
  split; reflexivity.
Qed.

Lemma failed_start_returns_to_idle_witness :
  startSession_failed (startSession initialApp) = initialApp.
Proof.
  exact (proj2 (failed_start_returns_to_idle initialApp eq_refl eq_refl)).
Defined.

(** ** Invariants of the event system *)

Section Invariants.
Variable dec : string -> AudioBuffer.
Variable P : App -> Prop.

Hypothesis P_setIsActive : forall b st, P st -> P (setIsActive b st).
Hypothesis P_setIsSyncing : forall b st, P st -> P (setIsSyncing b st).
Hypothesis P_set_liveSession : forall o st, P st -> P (set_liveSession o st).
Hypothesis P_stopSession : forall st, P st -> P (stopSession st).
Hypothesis P_onended : forall i st, P st -> P (onended i st).
Hypothesis P_clampCursor : forall t st, P st -> P (clampCursor t st).
Hypothesis P_startSource : forall data st, P st -> P (startSource (dec data) st).
Hypothesis P_appendUser : forall t st, P st -> P (appendUser t st).
Hypothesis P_appendModel : forall t st, P st -> P (appendModel t st).
Hypothesis P_commitTurn : forall st, P st -> P (commitTurn st).
Hypothesis P_interrupt : forall st, P st -> P (interrupt st).

Lemma kept_by_afterParts msg st : P st -> P (afterParts msg st).
Proof.
  intros H. unfold afterParts.
  destruct (inputTranscription msg), (outputTranscription msg),
    (turnComplete msg), (interrupted msg); auto.
Qed.

Lemma kept_by_onmessage_from now ps msg st :
  P st -> P (onmessage_from now ps msg st).1.
Proof.
  intros H. unfold onmessage_from.
  destruct (nextAudioPart ps) as [[data rest] | ]; simpl;
    [ now apply P_clampCursor | now apply kept_by_afterParts ].
Qed.

Lemma kept_by_step sys ev : P (app sys) -> P (app (step dec sys ev)).
Proof.
  intros H. destruct ev as [ | session | | | now msg | now i | | | source ]; simpl.
  - unfold startSession. destruct (isActive (app sys)); auto.
  - now apply P_set_liveSession.
  - now apply P_setIsSyncing.
  - unfold onopen. auto.
  - now apply kept_by_onmessage_from.
  - destruct (pending sys !! i) as [k | ]; [ | exact H ]. simpl.
    unfold onmessage_resume. now apply kept_by_onmessage_from, P_startSource.
  - now apply P_stopSession.
  - unfold onclose. auto.
  - now apply P_onended.
Qed.

Lemma kept_by_run evs sys : P (app sys) -> P (app (run dec evs sys)).
Proof.
  revert sys. induction evs as [ | ev evs IH ]; intros sys H; [ exact H | ].
  apply (IH (step dec sys ev)). now apply kept_by_step.
Qed.

End Invariants.

Lemma stopSession_fields (st : App) :
  stopSession st =
    {| isActive := false; isSyncing := false;
       transcription := {| user := ""; ai := "" |};
       history := history st;
       liveSession := None; nextStartTime := 0; sources := ∅;
       transcriptionRef := {| user := ""; ai := "" |};
       nodes := stopSources (sources st) (nodes st);
       closedSessions := closedSessions st ++ option_list (liveSession st) |}.
Proof.
  unfold stopSession. destruct st as [a s t h [old | ] c src r ns cl]; simpl;
    [ reflexivity | now rewrite app_nil_r ].
Qed.

(** X9: the history holds at most two entries in every state the mounted
    component can reach, whatever callbacks run and however the suspended
    message handlers interleave with them; a turn boundary is the only event
    that writes it. *)
Theorem history_bounded_in_every_run dec (evs : list Event) :
  length (history (app (run dec evs initialSystem))) <= 2.
Proof.
  apply (kept_by_run dec (fun st => length (history st) <= 2));
    try (intros; assumption).
  - intros st H. now rewrite stopSession_fields.
  - intros st _. apply commitTurn_history_length.
  - simpl. lia.
Qed.

Lemma sourcesActive_startSource buf st :
  sourcesActive st -> sourcesActive (startSource buf st).
Proof.
  intros H i Hi. unfold startSource in *. simpl in *.
  apply elem_of_union in Hi as [Hi | Hi].
  - apply elem_of_singleton in Hi as ->.
    eexists. split; [ apply list_lookup_middle; reflexivity | reflexivity ].
  - destruct (H i Hi) as (n & Hn & Hs). exists n. split; [ | exact Hs ].
    rewrite lookup_app_l; [ exact Hn | ]. eapply lookup_lt_Some, Hn.
Qed.

(** X10: in every state the mounted component can reach, every member of
    [sources] is a node that exists in the output context and on which
    [stop] was never called: a stopped node is never left in the set, also
    when a decode completes after an interruption. *)
Theorem sources_are_live_in_every_run dec (evs : list Event) :
  sourcesActive (app (run dec evs initialSystem)).
Proof.
  apply (kept_by_run dec sourcesActive); try (intros; assumption).
  - intros st _ i Hi. rewrite stopSession_fields in Hi. simpl in Hi.
    exfalso. exact (not_elem_of_empty i Hi).
  - intros j st H i Hi. unfold onended in Hi. simpl in Hi.
    apply elem_of_difference in Hi as [Hi _]. exact (H i Hi).
  - intros data st H. now apply sourcesActive_startSource.
  - intros st _ i Hi. simpl in Hi. exfalso. exact (not_elem_of_empty i Hi).
  - intros i Hi. simpl in Hi. exfalso. exact (not_elem_of_empty i Hi).
Qed.

Lemma displayInv_in_every_run dec (evs : list Event) :
  displayInv (app (run dec evs initialSystem)).
Proof.
  apply (kept_by_run dec displayInv); try (intros; assumption).
  - intros st _. rewrite stopSession_fields. split; [ reflexivity | ].
    exists "". reflexivity.
  - intros t st H. exact (displayInv_step (OpAppendUser t) st H).
  - intros t st H. exact (displayInv_step (OpAppendModel t) st H).
  - intros st H. exact (displayInv_step OpCommitTurn st H).
  - apply displayInv_initial.
Qed.

(** X11: in every state the mounted component can reach, the displayed
    model text is the model accumulator and the displayed user text is an
    end of the user accumulator, whatever mixture of fragments, turn
    boundaries, interruptions, stops and restarts led there. *)
Theorem display_tracks_accumulators_in_every_run dec (evs : list Event) :
  let st := app (run dec evs initialSystem) in
  ai (transcription st) = ai (transcriptionRef st)
  /\ exists hidden, user (transcriptionRef st) = hidden +:+ user (transcription st).
Proof. exact (displayInv_in_every_run dec evs). Qed.

(** X12: buffers having a non-negative duration, the cursor is never
    negative in any state the mounted component can reach. *)
Theorem cursor_never_negative_in_any_run dec (evs : list Event) :
  (forall d, (0 <= duration (dec d))%Q) ->
  (0 <= nextStartTime (app (run dec evs initialSystem)))%Q.
Proof.
  intros Hd.
  apply (kept_by_run dec (fun st => (0 <= nextStartTime st)%Q));
    try (intros; assumption).
  - intros st _. rewrite stopSession_fields. apply Qle_refl.
  - intros t st H. simpl.
    eapply Qle_trans; [ exact H | apply Math_max_ge_l ].
  - intros data st H. simpl. pose proof (Hd data). lra.
  - intros st _. apply Qle_refl.
  - apply Qle_refl.
Qed.

Lemma cursor_never_negative_in_any_run_witness :
  (0 <= nextStartTime
          (app (run exampleDecoder
                  [ EvClick; EvOpen; EvConnected 7;
                    EvMessage 1 (audioMessage "abcd");
                    EvMessage 2 interruptedMessage; EvDecoded 3 0 ]
                  initialSystem)))%Q.
Proof.
  exact (cursor_never_negative_in_any_run exampleDecoder _ exampleDecoder_nonneg).
Defined.

(** X13: a node of the output context is permanent.  Whatever happens
    after it was created, it stays at its index with the start time and the
    buffer it was given, and once stopped it stays stopped: nothing re-times,
    replaces, removes or revives a node. *)
Theorem nodes_are_permanent dec (evs : list Event) (sys : System)
    (i : nat) (n : SourceNode) :
  nodes (app sys) !! i = Some n ->
  exists n', nodes (app (run dec evs sys)) !! i = Some n'
             /\ startTime n' = startTime n
             /\ buffer n' = buffer n
             /\ (stopped n = true -> stopped n' = true).
Proof.
  intros Hn.
  assert (Hstop : forall srcs st,
    (exists n', nodes st !! i = Some n' /\ startTime n' = startTime n
                /\ buffer n' = buffer n /\ (stopped n = true -> stopped n' = true)) ->
    exists n', stopSources srcs (nodes st) !! i = Some n'
               /\ startTime n' = startTime n /\ buffer n' = buffer n
               /\ (stopped n = true -> stopped n' = true)).
  { intros srcs st (n' & Hl & Ht & Hb & Hs).
    rewrite stopSources_lookup, Hl. simpl.
    destruct (decide (i ∈ srcs)); eexists; (split; [ reflexivity | ]); simpl; auto. }
  apply (kept_by_run dec (fun st =>
    exists n', nodes st !! i = Some n' /\ startTime n' = startTime n
               /\ buffer n' = buffer n /\ (stopped n = true -> stopped n' = true)));
    try (intros; assumption).
  - intros st H. rewrite stopSession_fields. simpl. now apply Hstop.
  - intros data st (n' & Hl & H). exists n'. split; [ | exact H ].
    simpl. rewrite lookup_app_l; [ exact Hl | ]. eapply lookup_lt_Some, Hl.
  - intros st H. simpl. now apply Hstop.
  - exists n. auto.
Qed.

Lemma nodes_are_permanent_witness :
  let sys := run exampleDecoder [ EvMessage 1 (audioMessage "abcd"); EvDecoded 1 0 ]
               initialSystem in
  exists n', nodes (app (run exampleDecoder
                           [ EvMessage 2 interruptedMessage;
                             EvMessage 3 (audioMessage "ab"); EvDecoded 3 0; EvError ]
                           sys)) !! 0 = Some n'
             /\ startTime n' = 1%Q.
Proof.
  intros sys.
  destruct (nodes_are_permanent exampleDecoder
              [ EvMessage 2 interruptedMessage;
                EvMessage 3 (audioMessage "ab"); EvDecoded 3 0; EvError ]
              sys 0
              {| buffer := exampleDecoder "abcd"; startTime := 1; stopped := false |}
              eq_refl) as (n' & Hl & Ht & _).
  exists n'. split; [ exact Hl | exact Ht ].
Defined.

(** ** Turns *)

(** X14: a turn boundary that follows another one with nothing in between
    changes nothing: both buffers are empty, so no entry is appended, and
    the history, already within its bound, is kept as it is. *)
Theorem repeated_turn_boundary_is_a_noop (st : App) :
  commitTurn (commitTurn st) = commitTurn st.
Proof.
  unfold commitTurn, setHistory, setTranscription, set_transcriptionRef. simpl.
  rewrite !commitEntries_on_emptied_ref.
  rewrite (Array_slice_neg2_short (Array_slice (-2) (history st)))
    by (rewrite Array_slice_neg2_length; lia).
  reflexivity.
Qed.

Lemma fragments_accumulate (appends : list (Role * string)) :
  forall st,
    let st' := runTranscript (appendOp <$> appends) st in
    transcriptionRef st' =
      {| user := user (transcriptionRef st) +:+ fragments RoleUser appends;
         ai := ai (transcriptionRef st) +:+ fragments RoleAi appends |}
    /\ history st' = history st.
Proof.
  induction appends as [ | [r t] rest IH ]; intros st.
  - simpl. rewrite !string_app_empty_r. destruct (transcriptionRef st). split; reflexivity.
  - change (runTranscript (appendOp <$> (r, t) :: rest) st)
      with (runTranscript (appendOp <$> rest) (applyTranscriptOp st (appendOp (r, t)))).
    cbv zeta. destruct (IH (applyTranscriptOp st (appendOp (r, t)))) as [E H].
    rewrite E, H. destruct r; simpl; rewrite string_app_assoc; split; reflexivity.
Qed.

(** X15: from a turn boundary on, each accumulator holds the
    concatenation of its role's fragments in the order in which the append
    branches ran, however the fragments of the two roles were interleaved,
    and the appends leave the history alone; the next turn boundary empties
    both accumulators and leaves the history as the previous boundary left
    it. *)
Theorem accumulators_join_fragments (appends : list (Role * string)) (st0 : App) :
  let st := runTranscript (appendOp <$> appends) (commitTurn st0) in
  transcriptionRef st =
    {| user := fragments RoleUser appends; ai := fragments RoleAi appends |}
  /\ history st = history (commitTurn st0)
  /\ transcriptionRef (commitTurn st) = {| user := ""; ai := "" |}
  /\ history (commitTurn st) = history (commitTurn st0).
Proof.
  cbv zeta. destruct (fragments_accumulate appends (commitTurn st0)) as [E H].
  simpl in E. split; [ exact E | ]. split; [ exact H | ].
  split; [ reflexivity | ].
  rewrite commitTurn_history, H. apply Array_slice_neg2_short.
  apply commitTurn_history_length.
Qed.

Example accumulators_join_fragments_example :
  transcriptionRef
    (runTranscript
       (appendOp <$> [ (RoleUser, "how "); (RoleAi, "Quite ");
                       (RoleUser, "are you"); (RoleAi, "well.") ])
       initialApp)
  = {| user := "how are you"; ai := "Quite well." |}.
Proof. reflexivity. Qed.

(** ** What the render shows *)

Lemma Array_slice_neg1_snoc {A} (l : list A) (x : A) :
  Array_slice (-1) (l ++ [x]) = [x].
Proof.
  unfold Array_slice. change (-1 <? 0)%Z with true. cbv iota zeta.
  rewrite length_app. simpl.
  replace (Z.to_nat _) with (length l) by lia.
  now rewrite drop_app_length.
Qed.

Lemma Array_slice_neg1_of_neg2 {A} (l : list A) :
  Array_slice (-1) (Array_slice (-2) l) = Array_slice (-1) l.
Proof.
  unfold Array_slice. change (-1 <? 0)%Z with true. change (-2 <? 0)%Z with true.
  cbv iota zeta. rewrite length_drop, drop_drop. f_equal. lia.
Qed.

(** X16: the context line and the updater.  The render shows the text of
    the last history entry.  Whatever the ref holds when React runs the
    updater of a turn boundary, that line is afterwards the ref's model text
    when there is any, else its user text when there is any, else the line
    that was shown before; run as the handler leaves things, on the emptied
    ref, the updater keeps the line that was shown before. *)
Theorem context_line_follows_updater (ref : Transcription) (prev : list Entry)
    (st : App) :
  contextMemory (commitEntries ref prev) =
    (if truthy (ai ref) then [ ai ref ]
     else if truthy (user ref) then [ user ref ]
     else contextMemory prev)
  /\ contextMemory (history (commitTurn st)) = contextMemory (history st).
Proof.
  split.
  - unfold contextMemory, commitEntries.
    rewrite Array_slice_neg1_of_neg2.
    destruct ref as [[ | c u ] [ | d m ]]; simpl.
    + now rewrite app_nil_r.
    + now rewrite Array_slice_neg1_snoc.
    + now rewrite Array_slice_neg1_snoc.
    + rewrite cons_middle, app_assoc. now rewrite Array_slice_neg1_snoc.
  - rewrite commitTurn_history. unfold contextMemory.
    now rewrite Array_slice_neg1_of_neg2.
Qed.

(** X18: the active line.  In every state the mounted component can reach,
    the active line shows the whole model accumulator as soon as any model
    text of the turn has arrived, and the displayed user text only before
    that; it shows nothing when neither is there, which is the case right
    after a turn boundary and right after a stop. *)
Theorem active_line_prefers_model dec (evs : list Event) :
  let st := app (run dec evs initialSystem) in
  activeDialogue (transcription st) =
    (if truthy (ai (transcriptionRef st)) then Some (ai (transcriptionRef st))
     else if truthy (user (transcription st)) then Some (user (transcription st))
     else None)
  /\ activeDialogue (transcription (commitTurn st)) = None
  /\ activeDialogue (transcription (stopSession st)) = None.
Proof.
  cbv zeta. destruct (displayInv_in_every_run dec evs) as [Hai _].
  split; [ | split; [ reflexivity | now rewrite stopSession_fields ] ].
  unfold activeDialogue, js_or. rewrite Hai.
  destruct (user (transcription (app (run dec evs initialSystem)))),
    (ai (transcriptionRef (app (run dec evs initialSystem)))); reflexivity.
Qed.

(** ** No overlap with what is still playing *)

(** X19: buffers having a non-negative duration, in every state the
    mounted component can reach every node still in [sources] ends at or
    before the cursor.  As a chunk is started at the cursor or later, it never
    overlaps a node that is still in the set, in whatever order decodes
    complete and whenever interruptions are handled. *)
Theorem active_nodes_end_by_the_cursor dec (evs : list Event) (i : nat)
    (n : SourceNode) :
  (forall d, (0 <= duration (dec d))%Q) ->
  let st := app (run dec evs initialSystem) in
  i ∈ sources st -> nodes st !! i = Some n ->
  (startTime n + duration (buffer n) <= nextStartTime st)%Q
  /\ forall (now : Q) data m,
       nodes (scheduleChunk dec now data st) !! length (nodes st) = Some m ->
       (startTime n + duration (buffer n) <= startTime m)%Q.
Proof.
  intros Hd st.
  assert (Inv : forall j x, j ∈ sources st -> nodes st !! j = Some x ->
                  (startTime x + duration (buffer x) <= nextStartTime st)%Q).
  { subst st.
    apply (kept_by_run dec (fun st => forall j x, j ∈ sources st ->
             nodes st !! j = Some x ->
             (startTime x + duration (buffer x) <= nextStartTime st)%Q));
      try (intros ? ? H; exact H); try (intros ? H; exact H).
    - intros st _ j x Hj. rewrite stopSession_fields in Hj. simpl in Hj.
      exfalso. exact (not_elem_of_empty j Hj).
    - intros k st H j x Hj Hx. unfold onended in Hj. simpl in Hj, Hx.
      apply elem_of_difference in Hj as [Hj _]. exact (H j x Hj Hx).
    - intros t st H j x Hj Hx. simpl in *.
      eapply Qle_trans; [ exact (H j x Hj Hx) | apply Math_max_ge_l ].
    - intros data st H j x Hj Hx. unfold startSource in *. simpl in *.
      pose proof (Hd data) as Hdata.
      apply lookup_app_Some in Hx as [Hx | [Hge Hx]].
      + apply elem_of_union in Hj as [Hj | Hj].
        * apply elem_of_singleton in Hj. apply lookup_lt_Some in Hx. lia.
        * pose proof (H j x Hj Hx). lra.
      + destruct (j - length (nodes st)) as [ | k ]; [ | discriminate Hx ].
        simpl in Hx. injection Hx as E. subst x. simpl. apply Qle_refl.
    - intros st _ j x Hj. simpl in Hj. exfalso. exact (not_elem_of_empty j Hj).
    - intros j x Hj. simpl in Hj. exfalso. exact (not_elem_of_empty j Hj). }
  intros Hi Hn. split; [ exact (Inv i n Hi Hn) | ].
  intros now data m Hm. rewrite scheduleChunk_nodes in Hm.
  rewrite list_lookup_middle in Hm by reflexivity. injection Hm as <-. simpl.
  eapply Qle_trans; [ exact (Inv i n Hi Hn) | apply Math_max_ge_l ].
Qed.

Lemma active_nodes_end_by_the_cursor_witness :
  let st := app (run exampleDecoder
                   [ EvMessage 1 (audioMessage "abcd");
                     EvMessage 1 (audioMessage "ab");
                     EvDecoded 1 1; EvDecoded 2 0 ]
                   initialSystem) in
  sources st = {[ 0; 1 ]}
  /\ (startTime <$> nodes st) = [ 1%Q; (1 + (2 # 48000))%Q ]
  /\ ((1 + (2 # 48000)) + duration (exampleDecoder "abcd") <= nextStartTime st)%Q.
Proof.
  intros st. split; [ reflexivity | ]. split; [ reflexivity | ].
  assert (Hi : 1 ∈ sources st)
    by (apply (bool_decide_unpack (1 ∈ sources st)); vm_compute; exact I).
  exact (proj1 (active_nodes_end_by_the_cursor exampleDecoder
                  [ EvMessage 1 (audioMessage "abcd");
                    EvMessage 1 (audioMessage "ab");
                    EvDecoded 1 1; EvDecoded 2 0 ] 1
                  {| buffer := exampleDecoder "abcd";
                     startTime := 1 + (2 # 48000); stopped := false |}
                  exampleDecoder_nonneg Hi eq_refl)).
Defined.
